(** * riteraft / raftify: the per-node Raft driver

    A shallow embedding of [riteraft/raft_node.py] (class [RaftNode]) and of
    [raftify/mailbox.py] (class [Mailbox]).

    The driver is single-threaded cooperative code that mutates the node
    object, calls into three collaborators (the rraft [RawNode], the user
    state machine [store], the durable [storage]) and answers clients on
    reply queues.  It is modelled as a state-and-exception monad that also
    records, in program order, every call that leaves the node. *)

From Stdlib Require Import Strings.Byte NArith.
From stdpp Require Import gmap list strings pretty.

Open Scope N_scope.

(** ** Python values *)

Abbreviation bytes := (list byte).

#[global] Instance byte_eq_dec : EqDecision byte := Byte.byte_eq_dec.

(** The exceptions the modelled code can raise. [ExternalError] stands for
    whatever a collaborator (rraft, the user store, LMDB) raises. *)
Inductive exn : Type :=
  | KeyError
  | AttributeError
  | NotImplementedError
  | AssertionError
  | TimeoutError
  | CancelledError
  | StructError
  | UnknownError
  | ExternalError (code : N).

Inductive outcome (A : Type) : Type :=
  | Ok (a : A)
  | Raise (e : exn).
Arguments Ok {A} a.
Arguments Raise {A} e.

(** [str(n)] of a non-negative Python int. *)
Definition py_str (n : N) : string := pretty n.

(** ** riteraft.utils *)

Module Utils.

Definition byte_of_N (n : N) : byte := default x00 (Byte.of_N n).

(** Modelled from the spec: [encode_u64] and [decode_u64] live in
    riteraft/utils.py, which is not among the sources; the spec describes
    them as fixed-width 8-byte big-endian codecs. A value that does not
    fit in 64 bits raises. *)
Definition encode_u64 (v : N) : outcome bytes :=
  if v <? 2 ^ 64
  then Ok (map (fun i => byte_of_N ((v / 256 ^ i) mod 256)) [7; 6; 5; 4; 3; 2; 1; 0])
  else Raise StructError.

(** Modelled from the spec: [decode_u64], the inverse codec of
    riteraft/utils.py; a buffer that is not 8 bytes long raises. *)
Definition decode_u64 (b : bytes) : outcome N :=
  if (length b =? 8)%nat
  then Ok (fold_left (fun acc x => acc * 256 + Byte.to_N x) b 0)
  else Raise StructError.

End Utils.
Import Utils.

(** ** rraft data *)

Inductive EntryType : Type := EntryNormal | EntryConfChange | EntryConfChangeV2.
Inductive ConfChangeType : Type := AddNode | RemoveNode | AddLearnerNode.

Record ConfChange : Type := mkConfChange {
  cc_node_id : N;
  cc_change_type : ConfChangeType;
  cc_context : bytes
}.

Record ConfState : Type := mkConfState {
  cs_voters : list N;
  cs_learners : list N
}.

Record Entry : Type := mkEntry {
  entry_type : EntryType;
  entry_data : bytes;
  entry_context : bytes;
  entry_index : N;
  entry_term : N
}.

Record Snapshot : Type := mkSnapshot {
  snap_data : bytes;
  snap_index : N;
  snap_term : N;
  snap_conf_state : ConfState
}.

Definition Snapshot_default : Snapshot := mkSnapshot [] 0 0 (mkConfState [] []).

Record HardState : Type := mkHardState {
  hs_term : N;
  hs_vote : N;
  hs_commit : N
}.

Record Message : Type := mkMessage {
  msg_from : N;
  msg_to : N;
  msg_body : bytes
}.

Record Ready : Type := mkReady {
  rd_messages : list Message;
  rd_snapshot : Snapshot;
  rd_committed_entries : list Entry;
  rd_entries : list Entry;
  rd_hs : option HardState;
  rd_persisted_messages : list Message
}.

Record LightReady : Type := mkLightReady {
  lr_commit_index : option N;
  lr_messages : list Message;
  lr_committed_entries : list Entry
}.

#[global] Instance ConfState_eq_dec : EqDecision ConfState.
Proof. solve_decision. Defined.
#[global] Instance Snapshot_eq_dec : EqDecision Snapshot.
Proof. solve_decision. Defined.
#[global] Instance ConfChangeType_eq_dec : EqDecision ConfChangeType.
Proof. solve_decision. Defined.

(** ** riteraft data *)

(** [RaftClient(addr)]: the transport client of a populated peer. *)
Record RaftClient : Type := mkRaftClient { addr : N }.

(** A reply queue ([asyncio.Queue]) is a shared object; it is named by an
    identifier, and a [put] on it is recorded as an event. *)
Definition Chan : Type := N.

(** riteraft.message: the responses put on reply queues. *)
Inductive RaftResp : Type :=
  | RaftRespWrongLeader (leader_id : N) (leader_addr : string)
  | RaftRespJoinSuccess (assigned_id : N) (peer_addrs : gmap N string)
  | RaftRespIdReserved (reserved_id : N)
  | RaftRespOk
  | RaftRespResponse (data : bytes).

(** riteraft.message: what arrives on the node's inbound queue. *)
Inductive InMessage : Type :=
  | MessageConfigChange (change : ConfChange) (chan : Chan)
  | MessagePropose (proposal : bytes) (chan : Chan)
  | MessageRequestId (chan : Chan)
  | MessageRaft (msg : Message)
  | MessageReportUnreachable (node_id : N).

(** The result of one [asyncio.wait_for(self.chan.get(), heartbeat)]. *)
Inductive Arrival : Type :=
  | Got (m : InMessage)
  | TimedOut
  | Cancelled.

(** ** Calls that leave the node, in program order *)

Inductive StoreCall : Type :=
  | SmApply (data : bytes)
  | SmSnapshot
  | SmRestore (data : bytes).

Inductive StorageCall : Type :=
  | Compact (index : N)
  | CreateSnapshot (data : bytes)
  | SetConfState (cs : ConfState)
  | ApplySnapshot (snap : Snapshot)
  | Append (entries : list Entry)
  | SetHardState (hs : HardState)
  | SetHardStateComit (commit : N).

Inductive RaftCall : Type :=
  | Propose (context data : bytes)
  | ProposeConfChange (context : bytes) (change : ConfChange)
  | ApplyConfChange (change : ConfChange)
  | Step (msg : Message)
  | ReportUnreachable (node_id : N)
  | Tick
  | TakeReady
  | Advance
  | AdvanceApply.

(** Which list of a readiness cycle a dispatched message came from: the call
    site of [send_messages]. It is carried by the event only. *)
Inductive Batch : Type := BatchReady | BatchPersisted | BatchLight.

Inductive Event : Type :=
  | EvRecv (a : Arrival)
  | EvStore (c : StoreCall)
  | EvStorage (c : StorageCall)
  | EvRaft (c : RaftCall)
  | EvPut (chan : Chan) (resp : RaftResp)
  | EvSpawn (b : Batch) (client_id : N) (client : RaftClient) (msg : Message).

(** ** The collaborators, as interfaces *)

(** rraft: the [RawNode] owned by the driver. *)
Class RaftLib (RN : Type) : Type := {
  get_id : RN -> N;
  get_leader_id : RN -> N;
  get_applied : RN -> N;
  conf_change_decode : bytes -> outcome ConfChange;
  apply_conf_change : ConfChange -> RN -> outcome (option ConfState) * RN;
  propose : bytes -> bytes -> RN -> outcome unit * RN;
  propose_conf_change : bytes -> ConfChange -> RN -> outcome unit * RN;
  step : Message -> RN -> outcome unit * RN;
  report_unreachable : N -> RN -> RN;
  tick : RN -> RN;
  has_ready : RN -> bool;
  ready : RN -> Ready * RN;
  advance : Ready -> RN -> LightReady * RN;
  advance_apply : RN -> RN
}.

(** riteraft.store.AbstractStore: the user state machine. *)
Class AbstractStore (S : Type) : Type := {
  store_apply : bytes -> S -> outcome bytes * S;
  store_snapshot : S -> outcome bytes * S;
  store_restore : bytes -> S -> outcome unit * S
}.

(** The storage core reached through [storage.wl(lambda core: ...)]. *)
Class StorageCore (ST : Type) : Type := {
  storage_exec : StorageCall -> ST -> outcome unit * ST
}.

(** [time.time()] and the float comparison [now > last_snap_time + 15];
    float arithmetic itself is left abstract. *)
Class WallClock (T : Type) : Type := {
  time_at : nat -> T;
  snap_due : T -> T -> bool
}.

(** ** The node and its monad *)

Section Driver.

Context {RN S ST T : Type}.
Context `{!RaftLib RN, !AbstractStore S, !StorageCore ST, !WallClock T}.

(** The fields of [RaftNode], the [client_senders] dict that [run] creates
    and shares with the handlers, and the number of clock readings taken
    so far. The inbound queue [chan] is the schedule given to [run]. *)
Record World : Type := mkWorld {
  raw_node : RN;
  peers : gmap N (option RaftClient);
  store : S;
  storage : ST;
  should_quit : bool;
  seq : N;
  last_snap_time : T;
  client_senders : gmap N Chan;
  clock_reads : nat
}.

Definition set_raw_node (x : RN) (w : World) : World :=
  mkWorld x (peers w) (store w) (storage w) (should_quit w) (seq w)
    (last_snap_time w) (client_senders w) (clock_reads w).
Definition set_peers (x : gmap N (option RaftClient)) (w : World) : World :=
  mkWorld (raw_node w) x (store w) (storage w) (should_quit w) (seq w)
    (last_snap_time w) (client_senders w) (clock_reads w).
Definition set_store (x : S) (w : World) : World :=
  mkWorld (raw_node w) (peers w) x (storage w) (should_quit w) (seq w)
    (last_snap_time w) (client_senders w) (clock_reads w).
Definition set_storage (x : ST) (w : World) : World :=
  mkWorld (raw_node w) (peers w) (store w) x (should_quit w) (seq w)
    (last_snap_time w) (client_senders w) (clock_reads w).
Definition set_should_quit (x : bool) (w : World) : World :=
  mkWorld (raw_node w) (peers w) (store w) (storage w) x (seq w)
    (last_snap_time w) (client_senders w) (clock_reads w).
Definition set_seq (x : N) (w : World) : World :=
  mkWorld (raw_node w) (peers w) (store w) (storage w) (should_quit w) x
    (last_snap_time w) (client_senders w) (clock_reads w).
Definition set_last_snap_time (x : T) (w : World) : World :=
  mkWorld (raw_node w) (peers w) (store w) (storage w) (should_quit w) (seq w)
    x (client_senders w) (clock_reads w).
Definition set_client_senders (x : gmap N Chan) (w : World) : World :=
  mkWorld (raw_node w) (peers w) (store w) (storage w) (should_quit w) (seq w)
    (last_snap_time w) x (clock_reads w).
Definition set_clock_reads (x : nat) (w : World) : World :=
  mkWorld (raw_node w) (peers w) (store w) (storage w) (should_quit w) (seq w)
    (last_snap_time w) (client_senders w) x.

(** One execution: how it ended, the world it left (mutations made before
    an exception stay), and the calls it made. *)
Record Run (A : Type) : Type := mkRun {
  res : outcome A;
  post : World;
  evs : list Event
}.
Arguments mkRun {A} res post evs.
Arguments res {A} r.
Arguments post {A} r.
Arguments evs {A} r.

Definition M (A : Type) : Type := World -> Run A.

Definition ret {A} (a : A) : M A := fun w => mkRun (Ok a) w [].
Definition raise {A} (e : exn) : M A := fun w => mkRun (Raise e) w [].
Definition bind {A B} (m : M A) (k : A -> M B) : M B := fun w =>
  match m w with
  | mkRun (Ok a) w1 t1 =>
      match k a w1 with
      | mkRun o w2 t2 => mkRun o w2 (t1 ++ t2)
      end
  | mkRun (Raise e) w1 t1 => mkRun (Raise e) w1 t1
  end.

Notation "x <- m ;; k" := (bind m (fun x => k))
  (at level 100, m at next level, right associativity).
Notation "m ;;; k" := (bind m (fun _ => k))
  (at level 100, right associativity).

Definition emit (e : Event) : M unit := fun w => mkRun (Ok tt) w [e].
Definition gets {A} (f : World -> A) : M A := fun w => mkRun (Ok (f w)) w [].
Definition modify (f : World -> World) : M unit := fun w => mkRun (Ok tt) (f w) [].
Definition lift {A} (o : outcome A) : M A :=
  match o with Ok a => ret a | Raise e => raise e end.

(** A call into a collaborator: recorded, then run on the collaborator's
    state, which keeps what the call did even when it raises. *)
Definition call_raft {A} (c : RaftCall) (f : RN -> outcome A * RN) : M A :=
  emit (EvRaft c) ;;;
  fun w => let '(o, rn) := f (raw_node w) in mkRun o (set_raw_node rn w) [].

Definition call_store {A} (c : StoreCall) (f : S -> outcome A * S) : M A :=
  emit (EvStore c) ;;;
  fun w => let '(o, s) := f (store w) in mkRun o (set_store s w) [].

(** [self.storage.wl(lambda core: core.<call>)] *)
Definition storage_wl (c : StorageCall) : M unit :=
  emit (EvStorage c) ;;;
  fun w => let '(o, st) := storage_exec c (storage w) in mkRun o (set_storage st w) [].

(** [time.time()] *)
Definition time_time : M T := fun w =>
  mkRun (Ok (time_at (clock_reads w))) (set_clock_reads (Datatypes.S (clock_reads w)) w) [].

(** [await channel.put(response)] on an unbounded [asyncio.Queue]. *)
Definition chan_put (ch : Chan) (r : RaftResp) : M unit := emit (EvPut ch r).

(** *** RaftNode *)

Definition id : M N := gets (fun w => get_id (raw_node w)).
Definition leader : M N := gets (fun w => get_leader_id (raw_node w)).
Definition is_leader : M bool :=
  i <- id ;; l <- leader ;; ret (i =? l).

(** [{k: str(v.addr) for k, v in self.peers.items()}]: [v.addr] on a
    reserved entry ([None]) is an attribute error. *)
Definition peer_addrs_of (ps : gmap N (option RaftClient)) : outcome (gmap N string) :=
  map_fold (fun k v acc =>
              match acc with
              | Ok m => match v with
                        | Some c => Ok (<[k := py_str (addr c)]> m)
                        | None => Raise AttributeError
                        end
              | Raise e => Raise e
              end) (Ok ∅) ps.

Definition peer_addrs : M (gmap N string) :=
  ps <- gets peers ;; lift (peer_addrs_of ps).

(** [any(self.peers)]: some key is truthy, that is, non-zero. *)
Definition any_key (ps : gmap N (option RaftClient)) : bool :=
  map_fold (fun k _ b => b || negb (k =? 0)) false ps.

(** [max(self.peers.keys())], for a registry that has a key. *)
Definition max_key (ps : gmap N (option RaftClient)) : N :=
  map_fold (fun k _ m => N.max k m) 0 ps.

Definition reserve_next_peer_id : M N :=
  ps <- gets peers ;;
  let next_id := if any_key ps then max_key ps else 1 in
  own <- id ;;
  let next_id := N.max (next_id + 1) own in
  modify (fun w => set_peers (<[next_id := None]> (peers w)) w) ;;;
  ret next_id.

Definition send_message (b : Batch) (msg : Message) : M unit :=
  ps <- gets peers ;;
  match ps !! msg_to msg with
  | Some (Some client) => emit (EvSpawn b (msg_to msg) client msg)
  | _ => ret tt
  end.

Fixpoint send_messages (b : Batch) (msgs : list Message) : M unit :=
  match msgs with
  | [] => ret tt
  | msg :: rest => send_message b msg ;;; send_messages b rest
  end.

Definition send_wrong_leader (channel : Chan) : M unit :=
  leader_id <- leader ;;
  ps <- gets peers ;;
  match ps !! leader_id with
  | None => raise KeyError
  | Some None => raise AttributeError
  | Some (Some c) => chan_put channel (RaftRespWrongLeader leader_id (py_str (addr c)))
  end.

(** [senders.pop(seq, None)] *)
Definition senders_pop (k : N) : M (option Chan) :=
  cs <- gets client_senders ;;
  modify (set_client_senders (delete k cs)) ;;;
  ret (cs !! k).

Definition handle_normal (entry : Entry) : M unit :=
  sq <- lift (decode_u64 (entry_context entry)) ;;
  data <- call_store (SmApply (entry_data entry)) (store_apply (entry_data entry)) ;;
  sender <- senders_pop sq ;;
  match sender with
  | Some ch => chan_put ch (RaftRespResponse data)
  | None => ret tt
  end ;;;
  now <- time_time ;;
  last <- gets last_snap_time ;;
  if snap_due now last then
    now' <- time_time ;;
    modify (set_last_snap_time now') ;;;
    last_applied <- gets (fun w => get_applied (raw_node w)) ;;
    snapshot <- call_store SmSnapshot store_snapshot ;;
    storage_wl (Compact last_applied) ;;;
    storage_wl (CreateSnapshot snapshot)
  else ret tt.

Definition handle_config_change (entry : Entry) : M unit :=
  sq <- lift (decode_u64 (entry_context entry)) ;;
  change <- lift (conf_change_decode (entry_data entry)) ;;
  let node_id := cc_node_id change in
  let change_type := cc_change_type change in
  match change_type with
  | AddNode =>
      a <- lift (decode_u64 (cc_context change)) ;;
      modify (fun w => set_peers (<[node_id := Some (mkRaftClient a)]> (peers w)) w)
  | RemoveNode =>
      own <- id ;;
      if node_id =? own then modify (set_should_quit true)
      else
        ps <- gets peers ;;
        match ps !! node_id with
        | Some _ => modify (set_peers (delete node_id ps))
        | None => raise KeyError
        end
  | AddLearnerNode => raise NotImplementedError
  end ;;;
  cs <- call_raft (ApplyConfChange change) (apply_conf_change change) ;;
  match cs with
  | Some cs =>
      last_applied <- gets (fun w => get_applied (raw_node w)) ;;
      snapshot <- call_store SmSnapshot store_snapshot ;;
      storage_wl (SetConfState cs) ;;;
      storage_wl (Compact last_applied) ;;;
      storage_wl (CreateSnapshot snapshot)
  | None => ret tt
  end ;;;
  sender <- senders_pop sq ;;
  match sender with
  | Some ch =>
      response <- match change_type with
                  | AddNode =>
                      pa <- peer_addrs ;; ret (RaftRespJoinSuccess node_id pa)
                  | RemoveNode => ret RaftRespOk
                  | AddLearnerNode => raise NotImplementedError
                  end ;;
      chan_put ch response
  | None => ret tt
  end.

Fixpoint handle_committed_entries (committed_entries : list Entry) : M unit :=
  match committed_entries with
  | [] => ret tt
  | entry :: rest =>
      match entry_data entry with
      | [] => ret tt
      | _ :: _ =>
          match entry_type entry with
          | EntryNormal => handle_normal entry
          | EntryConfChange => handle_config_change entry
          | EntryConfChangeV2 => raise NotImplementedError
          end
      end ;;;
      handle_committed_entries rest
  end.

Definition on_ready : M unit :=
  hr <- gets (fun w => has_ready (raw_node w)) ;;
  if negb hr then ret tt
  else
    rd <- call_raft TakeReady (fun rn => let '(r, rn') := ready rn in (Ok r, rn')) ;;
    send_messages BatchReady (rd_messages rd) ;;;
    (if decide (rd_snapshot rd = Snapshot_default) then ret tt
     else
       let snapshot := rd_snapshot rd in
       call_store (SmRestore (snap_data snapshot)) (store_restore (snap_data snapshot)) ;;;
       storage_wl (ApplySnapshot snapshot)) ;;;
    handle_committed_entries (rd_committed_entries rd) ;;;
    storage_wl (Append (rd_entries rd)) ;;;
    match rd_hs rd with
    | Some hs => storage_wl (SetHardState hs)
    | None => ret tt
    end ;;;
    match rd_persisted_messages rd with
    | [] => ret tt
    | _ :: _ => send_messages BatchPersisted (rd_persisted_messages rd)
    end ;;;
    light_rd <- call_raft Advance (fun rn => let '(l, rn') := advance rd rn in (Ok l, rn')) ;;
    match lr_commit_index light_rd with
    | Some commit => if commit =? 0 then ret tt else storage_wl (SetHardStateComit commit)
    | None => ret tt
    end ;;;
    send_messages BatchLight (lr_messages light_rd) ;;;
    handle_committed_entries (lr_committed_entries light_rd) ;;;
    call_raft AdvanceApply (fun rn => (Ok tt, advance_apply rn)).

(** [await asyncio.wait_for(self.chan.get(), heartbeat)]: a timeout leaves
    [message] at [None], a cancellation is re-raised. *)
Definition chan_get (a : Arrival) : M (option InMessage) :=
  emit (EvRecv a) ;;;
  match a with
  | Got m => ret (Some m)
  | TimedOut => ret None
  | Cancelled => raise CancelledError
  end.

(** The leader's side of a proposal: a fresh sequence number names the
    reply queue and travels in the entry context. *)
Definition next_context (chan : Chan) : M bytes :=
  modify (fun w => set_seq (seq w + 1) w) ;;;
  sq <- gets seq ;;
  modify (fun w => set_client_senders (<[sq := chan]> (client_senders w)) w) ;;;
  lift (encode_u64 sq).

(** The [isinstance] chain of [run]. *)
Definition run_dispatch (message : option InMessage) : M unit :=
  match message with
  | Some (MessageConfigChange change chan) =>
      own <- id ;;
      let change :=
        if cc_node_id change =? 0
        then mkConfChange own (cc_change_type change) (cc_context change)
        else change in
      il <- is_leader ;;
      if negb il then send_wrong_leader chan
      else
        context <- next_context chan ;;
        call_raft (ProposeConfChange context change) (propose_conf_change context change)
  | Some (MessagePropose proposal chan) =>
      il <- is_leader ;;
      if negb il then send_wrong_leader chan
      else
        context <- next_context chan ;;
        call_raft (Propose context proposal) (propose context proposal)
  | Some (MessageRequestId chan) =>
      il <- is_leader ;;
      if negb il then send_wrong_leader chan
      else
        next_id <- reserve_next_peer_id ;;
        chan_put chan (RaftRespIdReserved next_id)
  | Some (MessageRaft msg) => call_raft (Step msg) (step msg)
  | Some (MessageReportUnreachable node_id) =>
      call_raft (ReportUnreachable node_id) (fun rn => (Ok tt, report_unreachable node_id rn))
  | None => ret tt
  end.

(** The body of the [while True] loop after the [should_quit] test. *)
Definition run_iteration (a : Arrival) : M unit :=
  message <- chan_get a ;;
  run_dispatch message ;;;
  call_raft Tick (fun rn => (Ok tt, tick rn)) ;;;
  on_ready.

(** [run], on the arrivals the inbound queue will deliver, one per
    iteration. It answers [true] when the loop returned and [false] when
    the loop is still running once the arrivals are used up. [run] starts
    with an empty [client_senders]; [run_from] is the loop itself. *)
Fixpoint run_from (arrivals : list Arrival) : M bool :=
  fun w =>
    if should_quit w then ret true w
    else
      match arrivals with
      | [] => ret false w
      | a :: rest => (run_iteration a ;;; run_from rest) w
      end.

Definition run (arrivals : list Arrival) : M bool :=
  modify (set_client_senders ∅) ;;; run_from arrivals.

End Driver.

Arguments mkRun {RN S ST T A} res post evs.
Arguments res {RN S ST T A} r.
Arguments post {RN S ST T A} r.
Arguments evs {RN S ST T A} r.

(** ** raftify.mailbox *)

Module Mailbox.

(** raftify.response_message: what the node answers on a receiver queue.
    [OtherRespMessage] is any response type the handler does not know. *)
Inductive ResponseMessage : Type :=
  | ClusterBootstrapReadyRespMessage
  | RaftRespMessage (data : bytes)
  | WrongLeaderRespMessage
  | OtherRespMessage.

Inductive RerouteMsgType : Type := RerouteConfChange | ReroutePropose.

(** What the leader's reroute endpoint returns: a [SendMessageResponse],
    or anything else. *)
Inductive RerouteReply : Type :=
  | SendMessageResponse (data : bytes)
  | OtherReply.

(** eraftpb [ConfChangeV2], as built by [ConfChange.as_v2]. *)
Record ConfChangeV2 : Type := mkConfChangeV2 {
  v2_changes : list (ConfChangeType * N);
  v2_context : bytes
}.

Record Client : Type := mkClient { client_addr : string }.
Record Peer : Type := mkPeer { client : option Client }.

(** The part of the node the mailbox reads. *)
Record RaftNode : Type := mkRaftNode {
  leader_id : N;
  peers : gmap N (option Peer)
}.

Inductive Request : Type :=
  | ProposeReqMessage (data : bytes)
  | ConfigChangeReqMessage (conf_change : ConfChangeV2).

(** What the mailbox does to the outside, in program order. *)
Inductive Action : Type :=
  | Enqueue (r : Request)
  | Reroute (to : Client) (t : RerouteMsgType)
            (conf_change : option ConfChangeV2) (msg_bytes : option bytes).

Definition is_reroute (a : Action) : bool :=
  match a with Reroute _ _ _ _ => true | Enqueue _ => false end.

Section Calls.

(** [leader.client.reroute_message(...)]: the transport's answer. *)
Variable reroute_message :
  Client -> RerouteMsgType -> option ConfChangeV2 -> option bytes -> outcome RerouteReply.

(** [pickle.dumps([addr])] *)
Variable pickle_dumps : list string -> bytes.

Variable raft_node : RaftNode.

Definition handle_response (response : ResponseMessage)
    (reroute_msg_type : option RerouteMsgType)
    (proposed_data : option bytes) (conf_change : option ConfChangeV2)
  : outcome (option bytes) * list Action :=
  match response with
  | ClusterBootstrapReadyRespMessage => (Ok None, [])
  | RaftRespMessage data => (Ok (Some data), [])
  | WrongLeaderRespMessage =>
      match reroute_msg_type with
      | None => (Raise AssertionError, [])
      | Some t =>
          match peers raft_node !! leader_id raft_node with
          | None => (Raise KeyError, [])
          | Some None => (Raise AssertionError, [])
          | Some (Some (mkPeer None)) => (Raise AssertionError, [])
          | Some (Some (mkPeer (Some c))) =>
              let act := Reroute c t conf_change proposed_data in
              match reroute_message c t conf_change proposed_data with
              | Raise e => (Raise e, [act])
              | Ok (SendMessageResponse data) => (Ok (Some data), [act])
              | Ok OtherReply => (Raise AssertionError, [act])
              end
          end
      end
  | OtherRespMessage => (Raise UnknownError, [])
  end.

(** [send]: [answer] is what the receiver queue delivers within the two
    seconds, [None] when it delivers nothing. The [except] clause logs
    and re-raises. *)
Definition send (message : bytes) (answer : option ResponseMessage)
  : outcome bytes * list Action :=
  let enq := Enqueue (ProposeReqMessage message) in
  match answer with
  | None => (Raise TimeoutError, [enq])
  | Some response =>
      let '(o, acts) :=
        handle_response response (Some ReroutePropose) (Some message) None in
      match o with
      | Ok (Some resp) => (Ok resp, enq :: acts)
      | Ok None => (Raise AssertionError, enq :: acts)
      | Raise e => (Raise e, enq :: acts)
      end
  end.

Definition leave (node_id : N) (addr : string) (answer : ResponseMessage)
  : outcome unit * list Action :=
  let conf_change_v2 := mkConfChangeV2 [(RemoveNode, node_id)] (pickle_dumps [addr]) in
  let enq := Enqueue (ConfigChangeReqMessage conf_change_v2) in
  let '(o, acts) :=
    handle_response answer (Some RerouteConfChange) None (Some conf_change_v2) in
  match o with
  | Ok _ => (Ok tt, enq :: acts)
  | Raise e => (Raise e, enq :: acts)
  end.

End Calls.

(** The node a client talks to: a follower that knows node 1 as leader. *)
Definition follower : RaftNode :=
  mkRaftNode 1 {[ 1 := Some (mkPeer (Some (mkClient "127.0.0.1:9001"))) ]}.

(** A leader that has just lost leadership: its reroute endpoint does not
    answer with a [SendMessageResponse]. *)
Definition churning : Client -> RerouteMsgType -> option ConfChangeV2 -> option bytes
                      -> outcome RerouteReply :=
  fun _ _ _ _ => Ok OtherReply.

End Mailbox.

(** ** raftify.deserializer *)

Module Deserializer.

(** [pickle.PROTO], the opcode that opens a pickle of protocol 2 or later. *)
Definition PROTO : byte := x80.

(** [data.index(pickle.PROTO)]: the position of the first such byte. *)
Fixpoint index (b : byte) (data : bytes) : option nat :=
  match data with
  | [] => None
  | x :: rest =>
      if decide (x = b) then Some 0%nat
      else match index b rest with
           | Some i => Some (Datatypes.S i)
           | None => None
           end
  end.

Section Pickle.

(** What [pickle.loads] builds, and [pickle.loads] itself. *)
Variable Obj : Type.
Variable pickle_loads : bytes -> outcome Obj.

(** The three kinds of result: [None], an unpickled object, or the bytes
    handed back as they came. *)
Inductive Deserialized : Type :=
  | NoData
  | Loaded (o : Obj)
  | Raw (data : bytes).

Definition pickle_deserialize (data : bytes) : outcome Deserialized :=
  match data with
  | [] => Ok NoData
  | _ :: _ =>
      match index PROTO data with
      | Some i =>
          match pickle_loads (drop i data) with
          | Ok o => Ok (Loaded o)
          | Raise e => Raise e
          end
      | None => Ok (Raw data)
      end
  end.

Definition entry_data_deserializer (data : bytes) : outcome Deserialized :=
  pickle_deserialize data.
Definition entry_context_deserializer (data : bytes) : outcome Deserialized :=
  pickle_deserialize data.
Definition snapshot_data_deserializer (data : bytes) : outcome Deserialized :=
  pickle_deserialize data.
Definition message_context_deserializer (data : bytes) : outcome Deserialized :=
  pickle_deserialize data.

End Pickle.

Arguments NoData {Obj}.
Arguments Loaded {Obj} o.
Arguments Raw {Obj} data.

End Deserializer.

(** ** A scripted cluster, to run the driver on concrete inputs *)

Module Scripted.

(** A [RawNode] that answers from a script: its identity, the leader it
    knows (0: none), the applied index, what [apply_conf_change] returns,
    and the readiness batches still to hand out, each with the light
    batch that [advance] returns for it. *)
Record ScriptedNode : Type := mkScriptedNode {
  sn_id : N;
  sn_leader : N;
  sn_applied : N;
  sn_conf : option ConfState;
  sn_script : list (Ready * LightReady)
}.

(** A toy wire format for [ConfChange]: one byte for the change type,
    then the node id as a byte, then the context. *)
Definition decode_conf_change (b : bytes) : outcome ConfChange :=
  match b with
  | x00 :: n :: ctx => Ok (mkConfChange (Byte.to_N n) AddNode ctx)
  | x01 :: n :: ctx => Ok (mkConfChange (Byte.to_N n) RemoveNode ctx)
  | x02 :: n :: ctx => Ok (mkConfChange (Byte.to_N n) AddLearnerNode ctx)
  | _ => Raise (ExternalError 1)
  end.

Definition empty_light : LightReady := mkLightReady None [] [].

#[global] Instance scripted_raft : RaftLib ScriptedNode := {|
  get_id := sn_id;
  get_leader_id := sn_leader;
  get_applied := sn_applied;
  conf_change_decode := decode_conf_change;
  apply_conf_change := fun _ rn => (Ok (sn_conf rn), rn);
  propose := fun _ _ rn => (Ok tt, rn);
  propose_conf_change := fun _ _ rn => (Ok tt, rn);
  step := fun _ rn => (Ok tt, rn);
  report_unreachable := fun _ rn => rn;
  tick := fun rn => rn;
  has_ready := fun rn => match sn_script rn with [] => false | _ => true end;
  ready := fun rn =>
    (match sn_script rn with
     | [] => mkReady [] Snapshot_default [] [] None []
     | (r, _) :: _ => r
     end, rn);
  advance := fun _ rn =>
    (match sn_script rn with [] => empty_light | (_, l) :: _ => l end,
     mkScriptedNode (sn_id rn) (sn_leader rn) (sn_applied rn) (sn_conf rn)
       (tail (sn_script rn)));
  advance_apply := fun rn => rn
|}.

(** A state machine that remembers the payloads it applied and answers
    each with the payload itself. *)
#[global] Instance echo_store : AbstractStore (list bytes) := {|
  store_apply := fun d s => (Ok d, s ++ [d]);
  store_snapshot := fun s => (Ok (concat s), s);
  store_restore := fun d _ => (Ok tt, [d])
|}.

(** A storage core that accepts every write and keeps them in order. *)
#[global] Instance log_storage : StorageCore (list StorageCall) := {|
  storage_exec := fun c st => (Ok tt, st ++ [c])
|}.

(** A clock in whole seconds that advances 20 s per reading. *)
#[global] Instance coarse_clock : WallClock Z := {|
  time_at := fun n => (20 * Z.of_nat n)%Z;
  snap_due := fun now last => (last + 15 <? now)%Z
|}.

Abbreviation world := (@World ScriptedNode (list bytes) (list StorageCall) Z).

(** A node with the given own id, known leader, [apply_conf_change]
    answer, script, registry and correlation table; the applied index
    is 7; the last snapshot was taken at second [t0] and the clock has
    been read [reads] times. *)
Definition node_with (own leader_ : N) (conf : option ConfState)
    (script : list (Ready * LightReady))
    (ps : gmap N (option RaftClient)) (senders : gmap N Chan) (t0 : Z) (reads : nat)
  : world :=
  mkWorld (mkScriptedNode own leader_ 7 conf script) ps [] [] false 0 t0 senders reads.

(** The context of an entry proposed under sequence [n] (below 256). *)
Definition ctx (n : N) : bytes := [x00; x00; x00; x00; x00; x00; x00; byte_of_N n].

Definition c1 : RaftClient := mkRaftClient 9001.
Definition c2 : RaftClient := mkRaftClient 9002.

(** A committed proposal of the payload "a" under sequence 1. *)
Definition entry_a : Entry := mkEntry EntryNormal [x61] (ctx 1) 8 1.

(** A committed proposal of the empty payload under sequence 1. *)
Definition entry_empty : Entry := mkEntry EntryNormal [] (ctx 1) 8 1.

(** A committed [AddNode] of node 2 at address 9002, under sequence 1. *)
Definition entry_add_2 : Entry :=
  mkEntry EntryConfChange
    ([x00; x02] ++ [x00; x00; x00; x00; x00; x00; x23; x2a]) (ctx 1) 8 1.

(** A committed [RemoveNode] of node 3, under sequence 1. *)
Definition entry_remove_3 : Entry := mkEntry EntryConfChange [x01; x03] (ctx 1) 9 1.

(** A readiness batch that only commits the given entries. *)
Definition commits (es : list Entry) : Ready * LightReady :=
  (mkReady [] Snapshot_default es [] None [], empty_light).

(** A readiness cycle that installs a snapshot and releases a persisted
    message to node 2. *)
Definition snapshot_batch : Ready * LightReady :=
  (mkReady [] (mkSnapshot [x73] 5 1 (mkConfState [1; 2] [])) []
     [mkEntry EntryNormal [x61] (ctx 1) 6 1] None [mkMessage 1 2 [x6d]],
   empty_light).

(** A [RawNode] in a term in which it cannot take requests: [propose],
    [propose_conf_change] and [step] raise; the rest is as scripted. *)
Record StrictNode : Type := mkStrictNode { strict_node : ScriptedNode }.

#[global] Instance strict_raft : RaftLib StrictNode := {|
  get_id := fun rn => sn_id (strict_node rn);
  get_leader_id := fun rn => sn_leader (strict_node rn);
  get_applied := fun rn => sn_applied (strict_node rn);
  conf_change_decode := decode_conf_change;
  apply_conf_change := fun _ rn => (Ok (sn_conf (strict_node rn)), rn);
  propose := fun _ _ rn => (Raise (ExternalError 2), rn);
  propose_conf_change := fun _ _ rn => (Raise (ExternalError 2), rn);
  step := fun _ rn => (Raise (ExternalError 3), rn);
  report_unreachable := fun _ rn => rn;
  tick := fun rn => rn;
  has_ready := fun _ => false;
  ready := fun rn => (mkReady [] Snapshot_default [] [] None [], rn);
  advance := fun _ rn => (empty_light, rn);
  advance_apply := fun rn => rn
|}.

(** A strict node 1 that is its own leader, with an empty registry. *)
Definition strict_leader : @World StrictNode (list bytes) (list StorageCall) Z :=
  mkWorld (mkStrictNode (mkScriptedNode 1 1 7 None [])) ∅ [] [] false 0 0%Z ∅ 0.

(** Leader 1 with queue 55 waiting under sequence 1. *)
Definition leader_waiting : world := node_with 1 1 None [] ∅ {[1 := 55]} 0 0.

(** Leader 1 with nobody waiting and an empty registry. *)
Definition leader_idle : world := node_with 1 1 None [] ∅ ∅ 0 0.

(** Leader 1 with peers 2 and 3 registered. *)
Definition leader_of_three : world :=
  node_with 1 1 None [] {[2 := Some c2; 3 := Some (mkRaftClient 9003)]} {[1 := 55]} 0 0.

(** A committed joint-consensus entry. *)
Definition entry_v2 : Entry := mkEntry EntryConfChangeV2 [x01] (ctx 2) 9 1.

(** A committed proposal of the payload "b" under sequence 2. *)
Definition entry_b : Entry := mkEntry EntryNormal [x62] (ctx 2) 10 1.

End Scripted.

(** A second reading of [reserve_next_peer_id], in the words of the
    specification: one more than the largest of the registered ids and the
    node's own id. *)
Definition spec_next_peer_id (ps : gmap N (option RaftClient)) (own : N) : N :=
  N.max (max_key ps) own + 1.

(** ** Ordering of calls in a trace *)

(** Every event satisfying [Q] has an event satisfying [P] before it. *)
Definition preceded_by (P Q : Event -> Prop) (t : list Event) : Prop :=
  forall pre e suf, t = pre ++ e :: suf -> Q e -> Exists P pre.

Definition is_compact (e : Event) : Prop :=
  match e with EvStorage (Compact _) => True | _ => False end.
Definition is_create_snapshot (e : Event) : Prop :=
  match e with EvStorage (CreateSnapshot _) => True | _ => False end.
Definition is_apply_snapshot (e : Event) : Prop :=
  match e with EvStorage (ApplySnapshot _) => True | _ => False end.
Definition is_persisted_dispatch (e : Event) : Prop :=
  match e with EvSpawn BatchPersisted _ _ _ => True | _ => False end.
Definition is_spawn_of (b : Batch) (e : Event) : Prop :=
  match e with EvSpawn b' _ _ _ => b' = b | _ => False end.

(** The calls a commit handler may make. *)
Definition handler_event (e : Event) : Prop :=
  match e with
  | EvStore (SmApply _) | EvStore SmSnapshot
  | EvStorage (Compact _) | EvStorage (CreateSnapshot _) | EvStorage (SetConfState _)
  | EvRaft (ApplyConfChange _) | EvPut _ _ => True
  | _ => False
  end.

(** The responses put on reply queues, in order. *)
Definition puts (t : list Event) : list (Chan * RaftResp) :=
  omap (fun e => match e with EvPut c r => Some (c, r) | _ => None end) t.

(** The reply queue a request carries, for the three kinds that need the
    leader. *)
Definition reply_chan (m : InMessage) : option Chan :=
  match m with
  | MessageConfigChange _ chan | MessagePropose _ chan | MessageRequestId chan => Some chan
  | MessageRaft _ | MessageReportUnreachable _ => None
  end.

(** ** Invariants that every step respects

    [keeps I E m]: [m] takes a world to an [I]-related one and makes only
    calls that satisfy [E]. *)
Definition keeps {RN S ST T A} (I : @World RN S ST T -> @World RN S ST T -> Prop)
    (E : Event -> Prop) (m : @M RN S ST T A) : Prop :=
  forall w, I w (post (m w)) /\ Forall E (evs (m w)).

Definition any_world {RN S ST T} : @World RN S ST T -> @World RN S ST T -> Prop :=
  fun _ _ => True.

(** Once set, [should_quit] stays set. *)
Definition quit_kept {RN S ST T} : @World RN S ST T -> @World RN S ST T -> Prop :=
  fun w w' => should_quit w = true -> should_quit w' = true.

(** ** More vocabulary *)

(** The arrivals taken from the inbound queue, in order. *)
Definition recvs (t : list Event) : list Arrival :=
  omap (fun e => match e with EvRecv a => Some a | _ => None end) t.

Definition is_recv (e : Event) : Prop :=
  match e with EvRecv _ => True | _ => False end.


Definition is_storage_call (e : Event) : Prop :=
  match e with EvStorage _ => True | _ => False end.

(** Every sequence in the correlation table has been allocated: it is at
    most the counter. *)
Definition senders_bounded {RN S ST T} (w : @World RN S ST T) : Prop :=
  forall k, is_Some (client_senders w !! k) -> k <= seq w.

(** The counter does not go back, and the table stays within it. *)
Definition seq_kept {RN S ST T} : @World RN S ST T -> @World RN S ST T -> Prop :=
  fun w w' => seq w <= seq w' /\ (senders_bounded w -> senders_bounded w').


(** The payloads handed to the state machine's [apply], in order. *)
Definition applied (t : list Event) : list bytes :=
  omap (fun e => match e with EvStore (SmApply d) => Some d | _ => None end) t.

(** * Facts *)

Section MonadFacts.

Context {RN S ST T : Type}.
Context `{!RaftLib RN, !AbstractStore S, !StorageCore ST, !WallClock T}.

Abbreviation W := (@World RN S ST T).
Abbreviation Mo := (@M RN S ST T).

Lemma bind_ok {A B} (m : Mo A) (k : A -> Mo B) (w : W) a :
  res (m w) = Ok a ->
  bind m k w = mkRun (res (k a (post (m w)))) (post (k a (post (m w))))
                 (evs (m w) ++ evs (k a (post (m w)))).
Proof.
  intros E. unfold bind. destruct (m w) as [o w1 t1]; simpl in *. subst o.
  now destruct (k a w1).
Qed.

Lemma bind_raise {A B} (m : Mo A) (k : A -> Mo B) (w : W) e :
  res (m w) = Raise e ->
  bind m k w = mkRun (Raise e) (post (m w)) (evs (m w)).
Proof.
  intros E. unfold bind. destruct (m w) as [o w1 t1]; simpl in *. now subst o.
Qed.

Lemma run_eta {A} (r : @Run RN S ST T A) : r = mkRun (res r) (post r) (evs r).
Proof. now destruct r. Qed.

Section Keeps.

Variable I : W -> W -> Prop.
Variable E : Event -> Prop.
Hypothesis I_refl : forall w, I w w.
Hypothesis I_trans : forall a b c, I a b -> I b c -> I a c.

Lemma keeps_ret {A} (a : A) : keeps I E (ret a).
Proof. intros w. simpl. auto. Qed.

Lemma keeps_raise {A} e : keeps I E (@raise RN S ST T A e).
Proof. intros w. simpl. auto. Qed.

Lemma keeps_gets {A} (f : W -> A) : keeps I E (gets f).
Proof. intros w. simpl. auto. Qed.

Lemma keeps_lift {A} (o : outcome A) : keeps I E (lift o).
Proof. destruct o; [apply keeps_ret | apply keeps_raise]. Qed.

Lemma keeps_emit e : E e -> keeps I E (emit e).
Proof. intros He w. simpl. auto. Qed.

Lemma keeps_modify f : (forall w, I w (f w)) -> keeps I E (modify f).
Proof. intros Hf w. simpl. auto. Qed.

Lemma keeps_bind {A B} (m : Mo A) (k : A -> Mo B) :
  keeps I E m -> (forall a, keeps I E (k a)) -> keeps I E (bind m k).
Proof.
  intros Hm Hk w. destruct (Hm w) as [Hi He].
  destruct (res (m w)) as [a|e] eqn:Hres.
  - rewrite (bind_ok _ _ _ _ Hres). simpl.
    destruct (Hk a (post (m w))) as [Hi' He']. split.
    + eapply I_trans; eauto.
    + apply Forall_app; auto.
  - rewrite (bind_raise _ _ _ _ Hres). simpl. auto.
Qed.

Lemma keeps_call_raft {A} c (f : RN -> outcome A * RN) :
  E (EvRaft c) -> (forall w rn, I w (set_raw_node rn w)) -> keeps I E (call_raft c f).
Proof.
  intros He Hs. unfold call_raft. apply keeps_bind; [now apply keeps_emit|].
  intros _ w. destruct (f (raw_node w)); simpl. auto.
Qed.

Lemma keeps_call_store {A} c (f : S -> outcome A * S) :
  E (EvStore c) -> (forall w s, I w (set_store s w)) -> keeps I E (call_store c f).
Proof.
  intros He Hs. unfold call_store. apply keeps_bind; [now apply keeps_emit|].
  intros _ w. destruct (f (store w)); simpl. auto.
Qed.

Lemma keeps_storage_wl c :
  E (EvStorage c) -> (forall w st, I w (set_storage st w)) -> keeps I E (storage_wl c).
Proof.
  intros He Hs. unfold storage_wl. apply keeps_bind; [now apply keeps_emit|].
  intros _ w. destruct (storage_exec c (storage w)); simpl. auto.
Qed.

Lemma keeps_time_time :
  (forall w n, I w (set_clock_reads n w)) -> keeps I E time_time.
Proof. intros Hs w. simpl. auto. Qed.

Lemma keeps_chan_put ch r : E (EvPut ch r) -> keeps I E (chan_put ch r).
Proof. apply keeps_emit. Qed.

Lemma keeps_senders_pop k :
  (forall w cs, I w (set_client_senders cs w)) -> keeps I E (senders_pop k).
Proof.
  intros Hs. unfold senders_pop. apply keeps_bind; [apply keeps_gets|]. intros cs.
  apply keeps_bind; [now apply keeps_modify | intros; apply keeps_ret].
Qed.

End Keeps.

End MonadFacts.

Ltac keeps_side :=
  try solve [ intros; hnf in *; simpl in *; intros;
              first [exact I | reflexivity | assumption | eauto] ].

Ltac keeps_step :=
  lazymatch goal with
  | |- keeps _ _ (bind _ _) => apply keeps_bind; [keeps_side .. | | intros ?]
  | |- keeps _ _ (ret _) => apply keeps_ret; keeps_side
  | |- keeps _ _ (raise _) => apply keeps_raise; keeps_side
  | |- keeps _ _ (gets _) => apply keeps_gets; keeps_side
  | |- keeps _ _ (lift _) => apply keeps_lift; keeps_side
  | |- keeps _ _ (emit _) => apply keeps_emit; keeps_side
  | |- keeps _ _ (modify _) => apply keeps_modify; keeps_side
  | |- keeps _ _ (call_raft _ _) => apply keeps_call_raft; keeps_side
  | |- keeps _ _ (call_store _ _) => apply keeps_call_store; keeps_side
  | |- keeps _ _ (storage_wl _) => apply keeps_storage_wl; keeps_side
  | |- keeps _ _ time_time => apply keeps_time_time; keeps_side
  | |- keeps _ _ (chan_put _ _) => apply keeps_chan_put; keeps_side
  | |- keeps _ _ (senders_pop _) => apply keeps_senders_pop; keeps_side
  | |- keeps _ _ (match ?x with _ => _ end) => destruct x
  | |- keeps _ _ (if ?x then _ else _) => destruct x
  end.

Section DriverFacts.

Context {RN S ST T : Type}.
Context `{!RaftLib RN, !AbstractStore S, !StorageCore ST, !WallClock T}.

Abbreviation W := (@World RN S ST T).
Abbreviation Mo := (@M RN S ST T).

(** *** What the commit handlers can and cannot do *)

Lemma handle_normal_events entry :
  @keeps RN S ST T _ any_world handler_event (handle_normal entry).
Proof. unfold handle_normal, any_world. repeat keeps_step. Qed.

Lemma handle_config_change_events entry :
  @keeps RN S ST T _ any_world handler_event (handle_config_change entry).
Proof.
  unfold handle_config_change, peer_addrs, id, any_world. repeat keeps_step.
Qed.

Lemma handle_committed_entries_events entries :
  @keeps RN S ST T _ any_world handler_event (handle_committed_entries entries).
Proof.
  induction entries as [|entry rest IH]; simpl.
  - now apply keeps_ret.
  - apply keeps_bind; [easy | | auto].
    destruct (entry_data entry); [now apply keeps_ret|].
    destruct (entry_type entry);
      auto using handle_normal_events, handle_config_change_events.
    now apply keeps_raise.
Qed.

Lemma quit_kept_refl (w : W) : quit_kept w w.
Proof. now unfold quit_kept. Qed.

Lemma quit_kept_trans (a b c : W) : quit_kept a b -> quit_kept b c -> quit_kept a c.
Proof. unfold quit_kept. auto. Qed.

Hint Resolve quit_kept_refl quit_kept_trans : core.

Lemma handle_normal_quit entry :
  @keeps RN S ST T _ quit_kept (fun _ => True) (handle_normal entry).
Proof. unfold handle_normal. repeat keeps_step. Qed.

Lemma handle_config_change_quit entry :
  @keeps RN S ST T _ quit_kept (fun _ => True) (handle_config_change entry).
Proof. unfold handle_config_change, peer_addrs, id. repeat keeps_step. Qed.

Lemma handle_committed_entries_quit entries :
  @keeps RN S ST T _ quit_kept (fun _ => True) (handle_committed_entries entries).
Proof.
  induction entries as [|entry rest IH]; simpl.
  - now apply keeps_ret.
  - apply keeps_bind; [eauto | | auto].
    destruct (entry_data entry); [now apply keeps_ret|].
    destruct (entry_type entry);
      auto using handle_normal_quit, handle_config_change_quit.
    now apply keeps_raise.
Qed.

(** *** Dispatching messages *)

Lemma send_message_run b msg (w : W) :
  send_message b msg w =
    mkRun (Ok tt) w
      match peers w !! msg_to msg with
      | Some (Some client) => [EvSpawn b (msg_to msg) client msg]
      | _ => []
      end.
Proof.
  unfold send_message, bind, gets. simpl.
  destruct (peers w !! msg_to msg) as [[c|]|]; reflexivity.
Qed.

Lemma send_messages_run b msgs (w : W) :
  res (send_messages b msgs w) = Ok tt /\
  post (send_messages b msgs w) = w /\
  forall e, e ∈ evs (send_messages b msgs w) <->
    exists msg client, msg ∈ msgs /\ peers w !! msg_to msg = Some (Some client) /\
                       e = EvSpawn b (msg_to msg) client msg.
Proof.
  induction msgs as [|msg rest IH]; simpl.
  - repeat split; try (intros H; now apply elem_of_nil in H).
    intros (m & c & Hm & _). now apply elem_of_nil in Hm.
  - rewrite (bind_ok _ _ _ tt) by now rewrite send_message_run.
    rewrite send_message_run. simpl.
    destruct IH as (Hr & Hp & He). repeat split; [assumption..| |].
    + intros Hin. apply elem_of_app in Hin as [Hin|Hin].
      * destruct (peers w !! msg_to msg) as [[c|]|] eqn:Hl;
          try (now apply elem_of_nil in Hin).
        apply list_elem_of_singleton in Hin. subst e.
        exists msg, c. split; [left | auto].
      * apply He in Hin as (m & c & Hm & Hl & ->).
        exists m, c. split; [now right | auto].
    + intros (m & c & Hm & Hl & ->). apply elem_of_app.
      apply elem_of_cons in Hm as [->|Hm].
      * left. rewrite Hl. now left.
      * right. apply He. eauto.
Qed.

Lemma keeps_send_messages (I : W -> W -> Prop) (E : Event -> Prop) b msgs :
  (forall w, I w w) ->
  (forall i c m, E (EvSpawn b i c m)) ->
  keeps I E (send_messages b msgs).
Proof.
  intros Hrefl HE w. destruct (send_messages_run b msgs w) as (_ & Hp & He).
  rewrite Hp. split; [apply Hrefl|].
  apply Forall_forall. intros e Hin. apply He in Hin as (m & c & _ & _ & ->). apply HE.
Qed.

Lemma on_ready_quit : @keeps RN S ST T _ quit_kept (fun _ => True) on_ready.
Proof.
  unfold on_ready.
  repeat first
    [ apply handle_committed_entries_quit
    | apply keeps_send_messages; keeps_side
    | keeps_step ].
Qed.

Lemma run_from_quit arrivals (w : W) :
  should_quit w = true -> run_from arrivals w = mkRun (Ok true) w [].
Proof. intros Hq. destruct arrivals; simpl; now rewrite Hq. Qed.

End DriverFacts.

(** ** Reasoning about the order of calls *)

Lemma preceded_by_nil P Q : preceded_by P Q [].
Proof. intros pre e suf Heq. now destruct pre. Qed.

Lemma preceded_by_cons P Q e t :
  ~ Q e -> P e \/ preceded_by P Q t -> preceded_by P Q (e :: t).
Proof.
  intros HnQ Hor pre e' suf Heq HQ. destruct pre as [|x pre]; simpl in Heq.
  - injection Heq as -> ->. contradiction.
  - injection Heq as -> ->. destruct Hor as [HP|Ht].
    + now apply Exists_cons_hd.
    + apply Exists_cons_tl. eapply Ht; eauto.
Qed.

Lemma preceded_by_app_seen P Q t1 t2 :
  preceded_by P Q t1 -> Exists P t1 -> preceded_by P Q (t1 ++ t2).
Proof.
  intros H1 Hex pre e suf Heq HQ.
  apply List.app_eq_app in Heq as [l [[Ht1 Hsuf]|[Hpre _]]].
  - destruct l as [|x l]; simpl in Hsuf.
    + rewrite app_nil_r in Ht1. now subst pre.
    + injection Hsuf as <- _. eapply H1; eauto.
  - subst pre. apply Exists_app. now left.
Qed.

Lemma preceded_by_app_clean P Q t1 t2 :
  Forall (fun e => ~ Q e) t1 -> preceded_by P Q t2 -> preceded_by P Q (t1 ++ t2).
Proof.
  intros Hc H2. induction t1 as [|x t1 IH]; simpl; [assumption|].
  apply Forall_cons in Hc as [Hx Hc].
  apply preceded_by_cons; [assumption | right; auto].
Qed.

Lemma preceded_by_clean P Q t :
  Forall (fun e => ~ Q e) t -> preceded_by P Q t.
Proof.
  intros Hc. rewrite <- (app_nil_r t).
  apply preceded_by_app_clean; [assumption | apply preceded_by_nil].
Qed.

(** Symbolic execution of straight-line driver code: take the innermost
    undecided test and split on it. *)
Ltac split_innermost :=
  match goal with
  | |- context [match ?x with _ => _ end] =>
      lazymatch x with
      | context [match _ with _ => _ end] => fail
      | _ => destruct x eqn:?
      end
  end.

Ltac run_cases := repeat (simpl in *; try split_innermost); simpl in *.

Ltac unfold_driver :=
  unfold peer_addrs, is_leader, id, leader, next_context, send_wrong_leader,
    call_raft, call_store, storage_wl, senders_pop, chan_put, chan_get, time_time;
  unfold lift, gets, modify, emit, ret, raise, bind.

Ltac order_cases :=
  repeat first
    [ apply preceded_by_nil
    | apply preceded_by_cons; [simpl; tauto | first [left; reflexivity | right]] ].

Ltac some_prefix :=
  first [ exists []; repeat eexists; simpl; reflexivity
        | eexists [_]; repeat eexists; simpl; reflexivity
        | eexists [_; _]; repeat eexists; simpl; reflexivity
        | eexists [_; _; _]; repeat eexists; simpl; reflexivity
        | eexists [_; _; _; _]; repeat eexists; simpl; reflexivity ].

Section SnapshotOrder.

Context {RN S ST T : Type}.
Context `{!RaftLib RN, !AbstractStore S, !StorageCore ST, !WallClock T}.

(** C1, as the code has it: in both commit paths the handler captures
    [last_applied], takes the state machine's snapshot, calls
    [storage.compact(last_applied)] and only then [storage.create_snapshot];
    [create_snapshot] is never called before that [compact]. When the
    snapshot timer fires on a normal entry, or [apply_conf_change] returns
    a conf state, and the handler completes, the calls are made in exactly
    this order. *)
Theorem compact_then_create_snapshot entry (w : @World RN S ST T) :
  let rn := handle_normal entry w in
  let rc := handle_config_change entry w in
  preceded_by (fun e => e = EvStorage (Compact (get_applied (raw_node w))))
    is_create_snapshot (evs rn) /\
  preceded_by (fun e => e = EvStorage (Compact (get_applied (raw_node (post rc)))))
    is_create_snapshot (evs rc) /\
  (snap_due (time_at (clock_reads w)) (last_snap_time w) = true ->
   res rn = Ok tt ->
   exists pre data,
     evs rn = pre ++ [EvStore SmSnapshot;
                      EvStorage (Compact (get_applied (raw_node w)));
                      EvStorage (CreateSnapshot data)]) /\
  (forall change cs,
     conf_change_decode (entry_data entry) = Ok change ->
     fst (apply_conf_change change (raw_node w)) = Ok (Some cs) ->
     res rc = Ok tt ->
     exists pre data suf,
       evs rc = pre ++ [EvStore SmSnapshot;
                        EvStorage (SetConfState cs);
                        EvStorage (Compact (get_applied (raw_node (post rc))));
                        EvStorage (CreateSnapshot data)] ++ suf).
Proof.
  repeat split.
  - unfold handle_normal. unfold_driver. run_cases; order_cases.
  - unfold handle_config_change. unfold_driver. run_cases; order_cases.
  - intros Hdue. unfold handle_normal. unfold_driver.
    run_cases; intros; try discriminate; try congruence; some_prefix.
  - intros change cs Hdec Happ. unfold handle_config_change. unfold_driver.
    rewrite Hdec.
    run_cases; intros; try discriminate; try congruence; simplify_eq;
      some_prefix.
Qed.

End SnapshotOrder.

Section Dispatch.

Context {RN S ST T : Type}.
Context `{!RaftLib RN, !AbstractStore S, !StorageCore ST, !WallClock T}.

(** C10: [send_messages] always returns, leaves the node as it was, and
    creates a sender task exactly for the messages whose destination is a
    populated peer; a destination that is absent or only reserved gets
    none. *)
Theorem send_messages_skips_unpopulated b msgs (w : @World RN S ST T) :
  let r := send_messages b msgs w in
  res r = Ok tt /\ post r = w /\
  (forall e, e ∈ evs r <->
     exists msg client, msg ∈ msgs /\ peers w !! msg_to msg = Some (Some client) /\
                        e = EvSpawn b (msg_to msg) client msg) /\
  (forall msg b' i c,
     peers w !! msg_to msg = None \/ peers w !! msg_to msg = Some None ->
     EvSpawn b' i c msg ∉ evs r).
Proof.
  destruct (send_messages_run b msgs w) as (Hr & Hp & He).
  repeat split; try assumption; try apply He.
  intros msg b' i c Hno Hin. apply He in Hin as (m & c' & _ & Hl & Heq).
  injection Heq as -> -> -> ->. destruct Hno as [Hno|Hno]; congruence.
Qed.

(** C4, as the code has it: a non-leader answers the three leader-only
    requests with [WrongLeader] carrying the leader's id and address when
    the leader's entry in the registry is populated. When the leader id is
    not in the registry, as when no leader is known, the lookup raises a
    key error and nothing is put on the reply queue; on a reserved entry
    it is an attribute error. *)
Theorem wrong_leader_needs_registered_leader m ch (w : @World RN S ST T) :
  reply_chan m = Some ch ->
  get_id (raw_node w) <> get_leader_id (raw_node w) ->
  let l := get_leader_id (raw_node w) in
  let r := run_dispatch (Some m) w in
  match peers w !! l with
  | Some (Some c) =>
      r = mkRun (Ok tt) w [EvPut ch (RaftRespWrongLeader l (py_str (addr c)))]
  | Some None => r = mkRun (Raise AttributeError) w []
  | None => r = mkRun (Raise KeyError) w []
  end.
Proof.
  intros Hch Hne. apply N.eqb_neq in Hne.
  destruct m; simpl in Hch; try discriminate; injection Hch as ->;
    unfold run_dispatch; unfold_driver; simpl; rewrite Hne; simpl;
    destruct (peers w !! get_leader_id (raw_node w)) as [[c|]|]; reflexivity.
Qed.

Lemma bind_ret_l {A} (k : unit -> @M RN S ST T A) w : bind (ret tt) k w = k tt w.
Proof. unfold bind, ret. now destruct (k tt w). Qed.

(** C2, as the code has it: the leader accepts an empty proposal like any
    other (sequence allocated, reply queue recorded, [propose] called with
    the zero-byte payload), but a committed entry without data is skipped:
    no [apply], no reply, and the correlation table is left as it is. *)
Theorem empty_entry_is_skipped chan (w : @World RN S ST T) :
  get_id (raw_node w) = get_leader_id (raw_node w) ->
  seq w + 1 < 2 ^ 64 ->
  (exists context,
     encode_u64 (seq w + 1) = Ok context /\
     evs (run_dispatch (Some (MessagePropose [] chan)) w) = [EvRaft (Propose context [])] /\
     client_senders (post (run_dispatch (Some (MessagePropose [] chan)) w))
       = <[seq w + 1 := chan]> (client_senders w)) /\
  (forall ty context index term rest (w' : @World RN S ST T),
     handle_committed_entries (mkEntry ty [] context index term :: rest) w'
       = handle_committed_entries rest w').
Proof.
  intros Hl Hseq. split.
  - unfold encode_u64. apply N.ltb_lt in Hseq. rewrite Hseq. eexists. split; [reflexivity|].
    unfold run_dispatch. unfold_driver. simpl. rewrite Hl, N.eqb_refl. simpl.
    unfold encode_u64. rewrite Hseq. simpl.
    destruct (propose _ _ _) as [[[]|e] rn]; simpl; auto.
  - intros. simpl. apply bind_ret_l.
Qed.

(** C8: a committed [RemoveNode] for the node's own id sets [should_quit]
    and leaves the peer registry alone; nothing in the rest of the
    readiness cycle clears the flag; and the loop, entered with the flag
    set, returns at once: it takes no arrival from the queue and makes no
    call. *)
Theorem remove_self_quits entry sq change (w : @World RN S ST T) :
  decode_u64 (entry_context entry) = Ok sq ->
  conf_change_decode (entry_data entry) = Ok change ->
  cc_change_type change = RemoveNode ->
  cc_node_id change = get_id (raw_node w) ->
  let r := handle_config_change entry w in
  should_quit (post r) = true /\ peers (post r) = peers w /\
  (forall rest, should_quit (post (handle_committed_entries rest (post r))) = true) /\
  (forall w', should_quit w' = true -> should_quit (post (on_ready w')) = true) /\
  (forall arrivals w', should_quit w' = true ->
     run_from arrivals w' = mkRun (Ok true) w' []).
Proof.
  intros Hsq Hdec Hty Hid.
  assert (should_quit (post (handle_config_change entry w)) = true /\
          peers (post (handle_config_change entry w)) = peers w) as [Hq Hp].
  { unfold handle_config_change. unfold_driver. rewrite Hsq, Hdec, Hty. simpl.
    rewrite Hid, N.eqb_refl. run_cases; auto. }
  repeat split; try assumption.
  - intros rest. now apply handle_committed_entries_quit.
  - intros w'. apply on_ready_quit.
  - intros. now apply run_from_quit.
Qed.

End Dispatch.

Section Replies.

Context {RN S ST T : Type}.
Context `{!RaftLib RN, !AbstractStore S, !StorageCore ST, !WallClock T}.

Lemma peer_addrs_of_spec (ps : gmap N (option RaftClient)) :
  (forall e, peer_addrs_of ps = Raise e -> e = AttributeError) /\
  ((exists k, ps !! k = Some None) -> peer_addrs_of ps = Raise AttributeError) /\
  ((forall k v, ps !! k = Some v -> is_Some v) ->
   peer_addrs_of ps = Ok (omap (fmap (fun c => py_str (addr c))) ps)).
Proof.
  unfold peer_addrs_of.
  apply (map_fold_weak_ind (fun r (m : gmap N (option RaftClient)) =>
    (forall e, r = Raise e -> e = AttributeError) /\
    ((exists k, m !! k = Some None) -> r = Raise AttributeError) /\
    ((forall k v, m !! k = Some v -> is_Some v) ->
     r = Ok (omap (fmap (fun c => py_str (addr c))) m)))).
  - split; [|split].
    + discriminate.
    + intros (k & Hk). now rewrite lookup_empty in Hk.
    + intros _. now rewrite omap_empty.
  - intros i x m r Hi (IHexn & IHbad & IHgood). split; [|split].
    + intros e. destruct r as [addrs|e']; [destruct x|]; try discriminate.
      * now intros [= <-].
      * intros [= <-]. now apply IHexn.
    + intros (k & Hk). destruct (decide (k = i)) as [->|Hne].
      * rewrite lookup_insert_eq in Hk. injection Hk as ->.
        destruct r as [addrs|e]; [reflexivity|].
        now rewrite (IHexn e eq_refl).
      * rewrite lookup_insert_ne in Hk by auto.
        rewrite (IHbad (ex_intro _ k Hk)). reflexivity.
    + intros Hall. rewrite IHgood.
      * destruct (Hall i x) as [c ->]; [apply lookup_insert_eq|].
        now rewrite (omap_insert_Some _ _ _ _ (py_str (addr c))).
      * intros k v Hkv. apply (Hall k). rewrite lookup_insert_ne; [assumption|].
        intros ->. congruence.
Qed.

Lemma no_sender_no_put entry sq (w : @World RN S ST T) :
  decode_u64 (entry_context entry) = Ok sq ->
  client_senders w !! sq = None ->
  puts (evs (handle_committed_entries [entry] w)) = [].
Proof.
  intros Hsq Hno. simpl. unfold handle_normal, handle_config_change. unfold_driver.
  rewrite Hsq. run_cases; try reflexivity; congruence.
Qed.

(** C7, as the code has it: when a committed entry with data is handled
    without raising, the entry of its sequence is gone from the
    correlation table; if the sequence was there, exactly one response was
    put, on the queue it named, and if it was not, none was put; handling
    the same entry again puts nothing. *)
Theorem correlated_reply_once entry sq (w : @World RN S ST T) :
  entry_data entry <> [] ->
  decode_u64 (entry_context entry) = Ok sq ->
  let r := handle_committed_entries [entry] w in
  res r = Ok tt ->
  client_senders (post r) = delete sq (client_senders w) /\
  match client_senders w !! sq with
  | Some ch => exists resp, puts (evs r) = [(ch, resp)]
  | None => puts (evs r) = []
  end /\
  puts (evs (handle_committed_entries [entry] (post r))) = [].
Proof.
  intros Hdata Hsq r Hres.
  assert (client_senders (post r) = delete sq (client_senders w) /\
          match client_senders w !! sq with
          | Some ch => exists resp, puts (evs r) = [(ch, resp)]
          | None => puts (evs r) = []
          end) as [Hdel Hput].
  { revert Hres. subst r. simpl.
    destruct (entry_data entry) as [|b l] eqn:Hd; [congruence|].
    unfold handle_normal, handle_config_change. unfold_driver. rewrite Hsq, ?Hd.
    run_cases; intros; try discriminate; try congruence;
      (split; [reflexivity | try reflexivity; eexists; reflexivity]). }
  repeat split; try assumption.
  apply (no_sender_no_put entry sq); [assumption|].
  rewrite Hdel. apply lookup_delete_eq.
Qed.

(** C9, as the code has it: [peer_addrs] raises an attribute error as soon
    as one entry of the registry is reserved, and renders the registry
    when all are populated; so a committed [AddNode] whose sender is
    waiting fails without replying while another id is reserved. The
    [WrongLeader] reply does not go through [peer_addrs]: it needs the
    leader's own entry to be populated and nothing of the others. *)
Theorem reserved_entry_breaks_join_success :
  (forall (ps : gmap N (option RaftClient)) k,
     ps !! k = Some None -> peer_addrs_of ps = Raise AttributeError) /\
  (forall (ps : gmap N (option RaftClient)),
     (forall k v, ps !! k = Some v -> is_Some v) ->
     peer_addrs_of ps = Ok (omap (fmap (fun c => py_str (addr c))) ps)) /\
  (forall entry sq change a ch k (w : @World RN S ST T),
     decode_u64 (entry_context entry) = Ok sq ->
     conf_change_decode (entry_data entry) = Ok change ->
     cc_change_type change = AddNode ->
     decode_u64 (cc_context change) = Ok a ->
     client_senders w !! sq = Some ch ->
     k <> cc_node_id change ->
     peers w !! k = Some None ->
     let r := handle_config_change entry w in
     puts (evs r) = [] /\ (exists e, res r = Raise e) /\
     (fst (apply_conf_change change (raw_node w)) = Ok None ->
      res r = Raise AttributeError)) /\
  (forall ch c (w : @World RN S ST T),
     peers w !! get_leader_id (raw_node w) = Some (Some c) ->
     send_wrong_leader ch w =
       mkRun (Ok tt) w
         [EvPut ch (RaftRespWrongLeader (get_leader_id (raw_node w)) (py_str (addr c)))]).
Proof.
  split; [|split; [|split]].
  - intros ps k Hk. apply peer_addrs_of_spec. eauto.
  - intros ps. apply peer_addrs_of_spec.
  - intros entry sq change a ch k w Hsq Hdec Hty Ha Hch Hne Hk r.
    assert (peer_addrs_of (<[cc_node_id change := Some (mkRaftClient a)]> (peers w))
            = Raise AttributeError) as Hpa.
    { apply peer_addrs_of_spec. exists k. now rewrite lookup_insert_ne by auto. }
    subst r. unfold handle_config_change. unfold_driver.
    rewrite Hsq, Hdec, Hty, Ha. simpl.
    run_cases; repeat split; eauto; try congruence; intros; simplify_eq.
  - intros ch c w Hl. unfold send_wrong_leader. unfold_driver. simpl. now rewrite Hl.
Qed.

End Replies.

Section Readiness.

Context {RN S ST T : Type}.
Context `{!RaftLib RN, !AbstractStore S, !StorageCore ST, !WallClock T}.

Lemma send_messages_eta b msgs (w : @World RN S ST T) :
  exists t, send_messages b msgs w = mkRun (Ok tt) w t /\ Forall (is_spawn_of b) t.
Proof.
  destruct (send_messages_run b msgs w) as (Hr & Hp & He).
  exists (evs (send_messages b msgs w)). split.
  - rewrite (run_eta (send_messages b msgs w)) at 1. now rewrite Hr, Hp.
  - apply Forall_forall. intros e Hin. apply He in Hin as (m & c & _ & _ & ->).
    reflexivity.
Qed.

Lemma handle_committed_entries_eta entries (w : @World RN S ST T) :
  exists o w' t, handle_committed_entries entries w = mkRun o w' t /\
                 Forall handler_event t.
Proof.
  destruct (handle_committed_entries_events entries w) as [_ Hall].
  destruct (handle_committed_entries entries w) as [o w' t]. eauto.
Qed.

End Readiness.

(** Symbolic execution of the readiness cycle: the two loops it calls are
    replaced by what is known of their traces. *)
Ltac ready_cases :=
  repeat (simpl in *;
    first
      [ match goal with
        | |- context [send_messages ?b ?l ?w] =>
            let t := fresh "t" in
            let Heq := fresh "Heq" in
            let Hall := fresh "Hspawn" in
            destruct (send_messages_eta b l w) as (t & Heq & Hall);
            rewrite Heq; clear Heq
        | |- context [handle_committed_entries ?l ?w] =>
            let o := fresh "o" in
            let w' := fresh "w" in
            let t := fresh "t" in
            let Heq := fresh "Heq" in
            let Hall := fresh "Hhandler" in
            destruct (handle_committed_entries_eta l w) as (o & w' & t & Heq & Hall);
            rewrite Heq; clear Heq
        end
      | split_innermost ]);
  simpl in *.

Ltac clean_events :=
  let e := fresh "e" in
  intros e; destruct e as [?|[]|[]|[]|? ?|[] ? ? ?]; simpl; intros;
  try tauto; try discriminate; try congruence.

Ltac order_ready :=
  repeat first
    [ apply preceded_by_nil
    | apply preceded_by_cons;
      [ simpl; first [tauto | discriminate | congruence]
      | first [left; solve [simpl; auto] | right] ]
    | apply preceded_by_app_clean;
      [ eapply Forall_impl; [eassumption | clean_events] | ]
    | apply preceded_by_clean; eapply Forall_impl; [eassumption | clean_events] ].

Ltac find_event :=
  repeat first
    [ apply elem_of_cons; left; reflexivity
    | apply elem_of_cons; right
    | apply elem_of_app; right ].

Section ReadinessOrder.

Context {RN S ST T : Type}.
Context `{!RaftLib RN, !AbstractStore S, !StorageCore ST, !WallClock T}.

Local Arguments send_messages : simpl never.
Local Arguments handle_committed_entries : simpl never.

(** C3: in a readiness cycle, a message of [persisted_messages] is handed
    to a sender only after [storage.append] was called with the batch's
    entries, and [storage.apply_snapshot] is called only after the state
    machine's [restore] was called on the data of the batch's snapshot.
    A batch with a snapshot does reach [restore], and a cycle that
    completes did append. *)
Theorem persist_before_release (w : @World RN S ST T) :
  let r := on_ready w in
  let rd := fst (ready (raw_node w)) in
  preceded_by (fun e => e = EvStorage (Append (rd_entries rd)))
    is_persisted_dispatch (evs r) /\
  preceded_by (fun e => e = EvStore (SmRestore (snap_data (rd_snapshot rd))))
    is_apply_snapshot (evs r) /\
  (has_ready (raw_node w) = true -> rd_snapshot rd <> Snapshot_default ->
   EvStore (SmRestore (snap_data (rd_snapshot rd))) ∈ evs r) /\
  (has_ready (raw_node w) = true -> res r = Ok tt ->
   EvStorage (Append (rd_entries rd)) ∈ evs r).
Proof.
  split; [|split; [|split]].
  - unfold on_ready. unfold_driver. ready_cases; order_ready.
  - unfold on_ready. unfold_driver. ready_cases; order_ready.
  - intros Hr. unfold on_ready. unfold_driver. rewrite Hr.
    ready_cases; intros; try congruence; find_event.
  - intros Hr. unfold on_ready. unfold_driver. rewrite Hr.
    ready_cases; intros; try discriminate; try congruence; find_event.
Qed.

End ReadinessOrder.

(** ** The peer registry *)

Section Registry.

Context {RN S ST T : Type}.
Context `{!RaftLib RN, !AbstractStore S, !StorageCore ST, !WallClock T}.

Lemma max_key_spec (ps : gmap N (option RaftClient)) :
  (ps = ∅ -> max_key ps = 0) /\
  (forall k, is_Some (ps !! k) -> k <= max_key ps) /\
  (ps <> ∅ -> is_Some (ps !! max_key ps)).
Proof.
  unfold max_key.
  apply (map_fold_weak_ind (fun r (m : gmap N (option RaftClient)) =>
    (m = ∅ -> r = 0) /\
    (forall k, is_Some (m !! k) -> k <= r) /\
    (m <> ∅ -> is_Some (m !! r)))).
  - split; [|split]; try easy.
    intros k [v Hv]. now rewrite lookup_empty in Hv.
  - intros i x m r Hi (Hemp & Hub & Hin). split; [|split].
    + intros Habs. apply (f_equal (fun m => m !! i)) in Habs.
      now rewrite lookup_insert_eq, lookup_empty in Habs.
    + intros k Hk. destruct (decide (k = i)) as [->|Hne]; [lia|].
      rewrite lookup_insert_ne in Hk by auto. specialize (Hub k Hk). lia.
    + intros _. destruct (N.max_spec i r) as [[Hlt ->]|[Hle ->]].
      * destruct (decide (m = ∅)) as [->|Hm]; [rewrite Hemp in Hlt by easy; lia|].
        rewrite lookup_insert_ne; [auto|].
        intros ->. destruct (Hin Hm) as [v Hv]. congruence.
      * rewrite lookup_insert_eq. eauto.
Qed.

Lemma any_key_spec (ps : gmap N (option RaftClient)) :
  any_key ps = true <-> exists k, is_Some (ps !! k) /\ k <> 0.
Proof.
  unfold any_key.
  apply (map_fold_weak_ind (fun b (m : gmap N (option RaftClient)) =>
    b = true <-> exists k, is_Some (m !! k) /\ k <> 0)).
  - split; [discriminate|]. intros (k & [v Hv] & _). now rewrite lookup_empty in Hv.
  - intros i x m b Hi IH. rewrite orb_true_iff, IH, negb_true_iff, N.eqb_neq. split.
    + intros [(k & Hk & Hk0)|Hi0].
      * exists k. split; [|assumption]. rewrite lookup_insert_ne; [assumption|].
        intros ->. destruct Hk as [v Hv]. congruence.
      * exists i. rewrite lookup_insert_eq. eauto.
    + intros (k & Hk & Hk0). destruct (decide (k = i)) as [->|Hne]; [now right|].
      left. exists k. now rewrite lookup_insert_ne in Hk by auto.
Qed.

(** What [reserve_next_peer_id] computes: no failure, no call, the new
    reserved entry, and the larger of "last id plus one" and the node's
    own id. *)
Lemma reserve_next_peer_id_run (w : @World RN S ST T) :
  let n := N.max ((if any_key (peers w) then max_key (peers w) else 1) + 1)
                 (get_id (raw_node w)) in
  reserve_next_peer_id w = mkRun (Ok n) (set_peers (<[n := None]> (peers w)) w) [].
Proof. reflexivity. Qed.

(** Where the code and the specification's formula agree: the own id is
    at least 1 and some registered id is at least as large. *)
Lemma reserve_next_peer_id_agrees (w : @World RN S ST T) :
  1 <= get_id (raw_node w) <= max_key (peers w) ->
  res (reserve_next_peer_id w) = Ok (spec_next_peer_id (peers w) (get_id (raw_node w))).
Proof.
  intros [H1 Hle]. rewrite reserve_next_peer_id_run. simpl. unfold spec_next_peer_id.
  assert (any_key (peers w) = true) as ->.
  { apply any_key_spec. exists (max_key (peers w)). split; [|lia].
    apply max_key_spec. intros Hemp. apply max_key_spec in Hemp. lia. }
  f_equal. lia.
Qed.

(** Where they differ: an own id above every registered id (and above 1)
    is handed out again. *)
Lemma reserve_next_peer_id_collides (w : @World RN S ST T) :
  max_key (peers w) < get_id (raw_node w) -> 2 <= get_id (raw_node w) ->
  res (reserve_next_peer_id w) = Ok (get_id (raw_node w)).
Proof.
  intros Hlt H2. rewrite reserve_next_peer_id_run. simpl. f_equal.
  destruct (any_key (peers w)); lia.
Qed.

End Registry.

(** ** The mailbox *)

Module MailboxFacts.

Import Mailbox.

Lemma handle_response_reroutes_once reroute node response t data cc :
  (length (List.filter is_reroute
     (snd (handle_response reroute node response t data cc))) <= 1)%nat.
Proof.
  unfold handle_response.
  destruct response; simpl; try lia.
  destruct t; simpl; try lia.
  destruct (peers node !! leader_id node) as [[[[c|]]|]|]; simpl; try lia.
  destruct (reroute c r cc data) as [[d|]|e]; simpl; lia.
Qed.

(** C5, on the code: after [WrongLeader] the mailbox reroutes once; when
    the leader's answer is not a [SendMessageResponse], [send] and [leave]
    end in the [assert False], an assertion error. *)
Theorem reroute_failure_is_assertion_error :
  send churning follower [x68; x69] (Some WrongLeaderRespMessage)
    = (Raise AssertionError,
       [Enqueue (ProposeReqMessage [x68; x69]);
        Reroute (mkClient "127.0.0.1:9001") ReroutePropose None (Some [x68; x69])]) /\
  leave churning (fun _ => [x80]) follower 3 "127.0.0.1:9003" WrongLeaderRespMessage
    = (Raise AssertionError,
       [Enqueue (ConfigChangeReqMessage (mkConfChangeV2 [(RemoveNode, 3)] [x80]));
        Reroute (mkClient "127.0.0.1:9001") RerouteConfChange
          (Some (mkConfChangeV2 [(RemoveNode, 3)] [x80])) None]).
Proof. split; vm_compute; reflexivity. Qed.

End MailboxFacts.

(** * Runs on the scripted cluster *)

Import Scripted.

Ltac not_in_trace H :=
  repeat (apply elem_of_cons in H as [H|H]; [discriminate H|]);
  now apply elem_of_nil in H.

(** C1, against the claim as stated: on a normal entry that fires the
    snapshot timer, [compact(7)] is called first and [create_snapshot]
    after it, so no [create_snapshot] precedes the [compact]. *)
Lemma compact_runs_before_create_snapshot :
  let r := handle_normal entry_a (node_with 1 1 None [] ∅ {[1 := 55]} 0 1) in
  evs r = [EvStore (SmApply [x61]); EvPut 55 (RaftRespResponse [x61]);
           EvStore SmSnapshot; EvStorage (Compact 7); EvStorage (CreateSnapshot [x61])] /\
  ~ preceded_by is_create_snapshot is_compact (evs r).
Proof.
  assert (evs (handle_normal entry_a (node_with 1 1 None [] ∅ {[1 := 55]} 0 1))
          = [EvStore (SmApply [x61]); EvPut 55 (RaftRespResponse [x61]);
             EvStore SmSnapshot; EvStorage (Compact 7);
             EvStorage (CreateSnapshot [x61])]) as Hev by (vm_compute; reflexivity).
  split; [exact Hev|]. rewrite Hev. intros Hp.
  specialize (Hp [EvStore (SmApply [x61]); EvPut 55 (RaftRespResponse [x61]);
                  EvStore SmSnapshot]
                 (EvStorage (Compact 7)) [EvStorage (CreateSnapshot [x61])] eq_refl I).
  apply Exists_exists in Hp as (e & Hin & He).
  repeat (apply elem_of_cons in Hin as [->|Hin]; [exact He|]).
  now apply elem_of_nil in Hin.
Qed.

Lemma compact_then_create_snapshot_witness :
  exists pre data,
    evs (handle_normal entry_a (node_with 1 1 None [] ∅ {[1 := 55]} 0 1))
    = pre ++ [EvStore SmSnapshot; EvStorage (Compact 7); EvStorage (CreateSnapshot data)].
Proof.
  destruct (compact_then_create_snapshot entry_a
              (node_with 1 1 None [] ∅ {[1 := 55]} 0 1)) as (_ & _ & H & _).
  apply H; reflexivity.
Defined.

(** C2, against the claim as stated: the leader accepts an empty proposal
    under sequence 1 and the entry commits, yet [apply] is never called,
    nothing is put on queue 55, and the table still holds the sequence. *)
Lemma empty_proposal_gets_no_reply :
  let r := run [Got (MessagePropose [] 55)]
             (node_with 1 1 None [commits [entry_empty]] ∅ ∅ 0 0) in
  res r = Ok false /\
  evs r = [EvRecv (Got (MessagePropose [] 55)); EvRaft (Propose (ctx 1) []);
           EvRaft Tick; EvRaft TakeReady; EvStorage (Append []);
           EvRaft Advance; EvRaft AdvanceApply] /\
  client_senders (post r) !! 1 = Some 55 /\
  (EvStore (SmApply []) ∉ evs r) /\
  (forall resp, EvPut 55 resp ∉ evs r).
Proof.
  assert (evs (run [Got (MessagePropose [] 55)]
                 (node_with 1 1 None [commits [entry_empty]] ∅ ∅ 0 0))
          = [EvRecv (Got (MessagePropose [] 55)); EvRaft (Propose (ctx 1) []);
             EvRaft Tick; EvRaft TakeReady; EvStorage (Append []);
             EvRaft Advance; EvRaft AdvanceApply]) as Hev by (vm_compute; reflexivity).
  cbv zeta. rewrite Hev. repeat split; try (vm_compute; reflexivity).
  - intros H. not_in_trace H.
  - intros resp H. not_in_trace H.
Qed.

Lemma empty_entry_is_skipped_witness :
  evs (run_dispatch (Some (MessagePropose [] 55)) (node_with 1 1 None [] ∅ ∅ 0 0))
    = [EvRaft (Propose (ctx 1) [])] /\
  handle_committed_entries [entry_empty] (node_with 1 1 None [] ∅ {[1 := 55]} 0 0)
    = mkRun (Ok tt) (node_with 1 1 None [] ∅ {[1 := 55]} 0 0) [].
Proof.
  destruct (empty_entry_is_skipped (RaftLib0 := scripted_raft) 55
              (node_with 1 1 None [] ∅ ∅ 0 0) eq_refl eq_refl)
    as [(context & Hc & Hev & _) Hskip].
  split.
  - injection Hc as <-. exact Hev.
  - unfold entry_empty. rewrite Hskip. reflexivity.
Defined.

(** C4, against the claim as stated: node 2 knows no leader (leader id 0);
    a proposal makes the loop fail with a key error, and nothing is put on
    the reply queue. The same holds for the other two requests. *)
Lemma no_leader_raises_key_error :
  let w := node_with 2 0 None [] {[1 := Some c1]} ∅ 0 0 in
  let r := run [Got (MessagePropose [x61] 55)] w in
  res r = Raise KeyError /\ puts (evs r) = [] /\
  run_dispatch (Some (MessageRequestId 55)) w = mkRun (Raise KeyError) w [] /\
  run_dispatch (Some (MessageConfigChange (mkConfChange 0 AddNode []) 55)) w
    = mkRun (Raise KeyError) w [].
Proof. repeat split; vm_compute; reflexivity. Qed.

Lemma wrong_leader_needs_registered_leader_witness :
  run_dispatch (Some (MessagePropose [x61] 55)) (node_with 2 1 None [] {[1 := Some c1]} ∅ 0 0)
    = mkRun (Ok tt) (node_with 2 1 None [] {[1 := Some c1]} ∅ 0 0)
        [EvPut 55 (RaftRespWrongLeader 1 "9001")].
Proof.
  exact (wrong_leader_needs_registered_leader (RaftLib0 := scripted_raft)
           (MessagePropose [x61] 55) 55
           (node_with 2 1 None [] {[1 := Some c1]} ∅ 0 0) eq_refl
           ltac:(discriminate)).
Defined.

(** C6, on the code: node 3 leads a cluster whose registry holds 1 and 2.
    A [RequestId] is answered with 3, the leader's own id, and a reserved
    entry is made under it; the specification's formula gives 4. On the
    one-node cluster the answer is 2. *)
Theorem reserve_next_peer_id_returns_own_id :
  let w := node_with 3 3 None [] {[1 := Some c1; 2 := Some c2]} ∅ 0 0 in
  let r := run_dispatch (Some (MessageRequestId 55)) w in
  get_id (raw_node w) = 3 /\
  res (reserve_next_peer_id w) = Ok 3 /\
  evs r = [EvPut 55 (RaftRespIdReserved 3)] /\
  peers (post r) !! 3 = Some None /\
  spec_next_peer_id (peers w) (get_id (raw_node w)) = 4 /\
  res (reserve_next_peer_id (node_with 1 1 None [] ∅ ∅ 0 0)) = Ok 2.
Proof. repeat split; vm_compute; reflexivity. Qed.

(** C7, against the claim as stated: sequence 1 is in the table, yet a
    committed entry without data gets no response and stays in the table;
    and a committed [AddNode] whose sender waits, while id 3 is reserved,
    loses its table entry without any response. *)
Lemma present_sequence_without_reply :
  let w := node_with 1 1 None [] ∅ {[1 := 55]} 0 0 in
  let r := handle_committed_entries [entry_empty] w in
  let w' := node_with 1 1 None [] {[3 := None]} {[1 := 55]} 0 0 in
  let r' := handle_committed_entries [entry_add_2] w' in
  client_senders w !! 1 = Some 55 /\
  res r = Ok tt /\ puts (evs r) = [] /\ client_senders (post r) !! 1 = Some 55 /\
  res r' = Raise AttributeError /\ puts (evs r') = [] /\
  client_senders (post r') !! 1 = None.
Proof. repeat split; vm_compute; reflexivity. Qed.

Lemma correlated_reply_once_witness :
  let w := node_with 1 1 None [] ∅ {[1 := 55]} 0 0 in
  let r := handle_committed_entries [entry_a] w in
  client_senders (post r) = delete 1 (client_senders w) /\
  (exists resp, puts (evs r) = [(55, resp)]) /\
  puts (evs (handle_committed_entries [entry_a] (post r))) = [].
Proof.
  exact (correlated_reply_once entry_a 1 (node_with 1 1 None [] ∅ {[1 := 55]} 0 0)
           ltac:(discriminate) eq_refl eq_refl).
Defined.

Lemma remove_self_quits_witness :
  let w := node_with 3 1 None [] {[1 := Some c1; 2 := Some c2]} ∅ 0 0 in
  should_quit (post (handle_config_change entry_remove_3 w)) = true /\
  peers (post (handle_config_change entry_remove_3 w)) = peers w.
Proof.
  destruct (remove_self_quits (RaftLib0 := scripted_raft) entry_remove_3 1 (mkConfChange 3 RemoveNode [])
              (node_with 3 1 None [] {[1 := Some c1; 2 := Some c2]} ∅ 0 0)
              eq_refl eq_refl eq_refl eq_refl) as (Hq & Hp & _).
  split; assumption.
Defined.

(** Node 3 is removed while a proposal waits in its inbound queue: the
    first iteration commits the removal, the loop returns before the second
    one, and the proposal is neither taken from the queue nor proposed. *)
Lemma removed_node_takes_no_more_requests :
  let r := run [TimedOut; Got (MessagePropose [x61] 55)]
             (node_with 3 1 None [commits [entry_remove_3]]
                {[1 := Some c1; 2 := Some c2]} ∅ 0 0) in
  res r = Ok true /\
  evs r = [EvRecv TimedOut; EvRaft Tick; EvRaft TakeReady;
           EvRaft (ApplyConfChange (mkConfChange 3 RemoveNode []));
           EvStorage (Append []); EvRaft Advance; EvRaft AdvanceApply] /\
  peers (post r) = {[1 := Some c1; 2 := Some c2]}.
Proof. repeat split; vm_compute; reflexivity. Qed.

(** C9, against the claim as stated: with id 3 only reserved, [peer_addrs]
    raises, but the [WrongLeader] reply is sent all the same. *)
Lemma wrong_leader_ignores_reserved_entries :
  let w := node_with 2 1 None [] {[1 := Some c1; 3 := None]} ∅ 0 0 in
  peer_addrs_of (peers w) = Raise AttributeError /\
  run_dispatch (Some (MessagePropose [x61] 55)) w
    = mkRun (Ok tt) w [EvPut 55 (RaftRespWrongLeader 1 "9001")].
Proof. split; vm_compute; reflexivity. Qed.

Lemma reserved_entry_breaks_join_success_witness :
  let r := handle_config_change entry_add_2
             (node_with 1 1 None [] {[3 := None]} {[1 := 55]} 0 0) in
  puts (evs r) = [] /\ res r = Raise AttributeError.
Proof.
  assert (client_senders (node_with 1 1 None [] {[3 := None]} {[1 := 55]} 0 0) !! 1
          = Some 55) as Hsender by (vm_compute; reflexivity).
  assert (peers (node_with 1 1 None [] {[3 := None]} {[1 := 55]} 0 0) !! 3
          = Some None) as Hreserved by (vm_compute; reflexivity).
  destruct (reserved_entry_breaks_join_success
              (RaftLib0 := scripted_raft) (AbstractStore0 := echo_store)
              (StorageCore0 := log_storage) (T := Z))
    as (_ & _ & H & _).
  destruct (H entry_add_2 1 (mkConfChange 2 AddNode [x00; x00; x00; x00; x00; x00; x23; x2a])
              9002 55 3 (node_with 1 1 None [] {[3 := None]} {[1 := 55]} 0 0)
              eq_refl eq_refl eq_refl eq_refl Hsender ltac:(discriminate) Hreserved)
    as (Hputs & _ & Hres).
  split; [exact Hputs | exact (Hres eq_refl)].
Defined.

Lemma persist_before_release_witness :
  let r := on_ready (node_with 1 1 None [snapshot_batch] {[2 := Some c2]} ∅ 0 0) in
  EvStore (SmRestore [x73]) ∈ evs r /\
  EvStorage (Append [mkEntry EntryNormal [x61] (ctx 1) 6 1]) ∈ evs r /\
  evs r = [EvRaft TakeReady; EvStore (SmRestore [x73]);
           EvStorage (ApplySnapshot (mkSnapshot [x73] 5 1 (mkConfState [1; 2] [])));
           EvStorage (Append [mkEntry EntryNormal [x61] (ctx 1) 6 1]);
           EvSpawn BatchPersisted 2 c2 (mkMessage 1 2 [x6d]);
           EvRaft Advance; EvRaft AdvanceApply].
Proof.
  destruct (persist_before_release
              (node_with 1 1 None [snapshot_batch] {[2 := Some c2]} ∅ 0 0))
    as (_ & _ & Hrestore & Happend).
  split; [|split].
  - apply Hrestore; [reflexivity | discriminate].
  - apply Happend; reflexivity.
  - vm_compute. reflexivity.
Defined.

Lemma send_messages_skips_unpopulated_witness :
  let w := node_with 1 1 None [] {[2 := Some c2; 3 := None]} ∅ 0 0 in
  let r := send_messages BatchReady
             [mkMessage 1 2 [x6d]; mkMessage 1 3 [x6d]; mkMessage 1 4 [x6d]] w in
  res r = Ok tt /\ post r = w /\
  EvSpawn BatchReady 3 c2 (mkMessage 1 3 [x6d]) ∉ evs r.
Proof.
  destruct (send_messages_skips_unpopulated BatchReady
              [mkMessage 1 2 [x6d]; mkMessage 1 3 [x6d]; mkMessage 1 4 [x6d]]
              (node_with 1 1 None [] {[2 := Some c2; 3 := None]} ∅ 0 0))
    as (Hr & Hp & _ & Hskip).
  split; [exact Hr | split; [exact Hp|]].
  apply Hskip. right. reflexivity.
Defined.

(** * Further properties of the driver *)

Section Batches.

Context {RN S ST T : Type}.
Context `{!RaftLib RN, !AbstractStore S, !StorageCore ST, !WallClock T}.

Lemma bind_assoc {A B C} (m : @M RN S ST T A) (k : A -> @M RN S ST T B)
    (k' : B -> @M RN S ST T C) w :
  bind (bind m k) k' w = bind m (fun a => bind (k a) k') w.
Proof.
  unfold bind. destruct (m w) as [[a|e] w1 t1]; [|reflexivity].
  destruct (k a w1) as [[b|e] w2 t2]; [|reflexivity].
  destruct (k' b w2) as [o w3 t3]. now rewrite app_assoc.
Qed.

Lemma bind_ext {A B} (m : @M RN S ST T A) (k k' : A -> @M RN S ST T B) w :
  (forall a w', k a w' = k' a w') -> bind m k w = bind m k' w.
Proof.
  intros Hk. unfold bind. destruct (m w) as [[a|e] w1 t1]; [|reflexivity].
  now rewrite Hk.
Qed.

Lemma handle_committed_entries_app es1 es2 (w : @World RN S ST T) :
  handle_committed_entries (es1 ++ es2) w
  = bind (handle_committed_entries es1) (fun _ => handle_committed_entries es2) w.
Proof.
  revert w. induction es1 as [|entry rest IH]; intros w; simpl.
  - now rewrite bind_ret_l.
  - rewrite bind_assoc. apply bind_ext. intros _ w'. apply IH.
Qed.

(** X1: a batch of committed entries is handled one entry after the other,
    on the world the earlier ones left; when an entry raises, the batch ends
    there, with the same exception, world and calls, and no later entry is
    looked at. *)
Theorem committed_entries_in_order es1 es2 (w : @World RN S ST T) :
  let r1 := handle_committed_entries es1 w in
  let r2 := handle_committed_entries es2 (post r1) in
  handle_committed_entries (es1 ++ es2) w =
    match res r1 with
    | Ok _ => mkRun (res r2) (post r2) (evs r1 ++ evs r2)
    | Raise e => r1
    end.
Proof.
  cbv zeta. rewrite handle_committed_entries_app.
  destruct (res (handle_committed_entries es1 w)) as [[]|e] eqn:Hres.
  - now rewrite (bind_ok _ _ _ _ Hres).
  - rewrite (bind_raise _ _ _ _ Hres).
    rewrite (run_eta (handle_committed_entries es1 w)) at 3. now rewrite Hres.
Qed.

(** X2: a committed [EntryConfChangeV2] that carries data is not
    implemented: the batch raises at it, after the entries before it were
    handled, and the entries after it are never applied. *)
Theorem conf_change_v2_stops_the_batch es1 entry es2 (w : @World RN S ST T) :
  entry_type entry = EntryConfChangeV2 ->
  entry_data entry <> [] ->
  res (handle_committed_entries es1 w) = Ok tt ->
  handle_committed_entries (es1 ++ entry :: es2) w
  = mkRun (Raise NotImplementedError) (post (handle_committed_entries es1 w))
      (evs (handle_committed_entries es1 w)).
Proof.
  intros Hty Hdata Hres. rewrite handle_committed_entries_app.
  rewrite (bind_ok _ _ _ _ Hres). simpl.
  destruct (entry_data entry) as [|b l]; [congruence|]. rewrite Hty.
  unfold bind, raise. simpl. now rewrite app_nil_r.
Qed.

End Batches.

(** A variant of the invariant stepper whose side conditions are closed by
    a given tactic; [senders_pop] only ever deletes. *)
Ltac keeps_step_with side :=
  lazymatch goal with
  | |- keeps _ _ (bind _ _) => apply keeps_bind; [side .. | | intros ?]
  | |- keeps _ _ (ret _) => apply keeps_ret; side
  | |- keeps _ _ (raise _) => apply keeps_raise; side
  | |- keeps _ _ (gets _) => apply keeps_gets; side
  | |- keeps _ _ (lift _) => apply keeps_lift; side
  | |- keeps _ _ (emit _) => apply keeps_emit; side
  | |- keeps _ _ (modify _) => apply keeps_modify; side
  | |- keeps _ _ (call_raft _ _) => apply keeps_call_raft; side
  | |- keeps _ _ (call_store _ _) => apply keeps_call_store; side
  | |- keeps _ _ (storage_wl _) => apply keeps_storage_wl; side
  | |- keeps _ _ time_time => apply keeps_time_time; side
  | |- keeps _ _ (chan_put _ _) => apply keeps_chan_put; side
  | |- keeps _ _ (match ?x with _ => _ end) => destruct x
  | |- keeps _ _ (if ?x then _ else _) => destruct x
  end.

Section Sequences.

Context {RN S ST T : Type}.
Context `{!RaftLib RN, !AbstractStore S, !StorageCore ST, !WallClock T}.

Abbreviation W := (@World RN S ST T).

Lemma seq_kept_refl (w : W) : seq_kept w w.
Proof. split; [lia | auto]. Qed.

Lemma seq_kept_trans (a b c : W) : seq_kept a b -> seq_kept b c -> seq_kept a c.
Proof. intros [H1 H2] [H3 H4]. split; [lia | auto]. Qed.

Lemma seq_kept_same (w w' : W) :
  seq w' = seq w -> client_senders w' = client_senders w -> seq_kept w w'.
Proof.
  intros Hs Hc. split; [lia|]. intros Hb k Hk. rewrite Hs. apply Hb. now rewrite <- Hc.
Qed.

Lemma seq_kept_delete (w w' : W) k :
  seq w' = seq w -> client_senders w' = delete k (client_senders w) -> seq_kept w w'.
Proof.
  intros Hs Hc. split; [lia|]. intros Hb j [v Hj]. rewrite Hs. apply Hb.
  rewrite Hc in Hj. apply lookup_delete_Some in Hj as [_ Hj]. eauto.
Qed.

Lemma seq_kept_alloc (w w' : W) ch :
  seq w' = seq w + 1 -> client_senders w' = <[seq w + 1 := ch]> (client_senders w) ->
  seq_kept w w'.
Proof.
  intros Hs Hc. split; [lia|]. intros Hb j [v Hj]. rewrite Hs. rewrite Hc in Hj.
  apply lookup_insert_Some in Hj as [[<- _]|[_ Hj]]; [lia|].
  specialize (Hb j (ex_intro _ v Hj)). lia.
Qed.

Lemma keeps_senders_pop_delete (I : W -> W -> Prop) (E : Event -> Prop) k :
  (forall w, I w (set_client_senders (delete k (client_senders w)) w)) ->
  keeps I E (senders_pop k).
Proof. intros Hd w. simpl. auto. Qed.

Lemma keeps_impl {A} (I I' : W -> W -> Prop) (E E' : Event -> Prop) (m : @M RN S ST T A) :
  (forall w w', I w w' -> I' w w') -> (forall e, E e -> E' e) ->
  keeps I E m -> keeps I' E' m.
Proof.
  intros HI HE Hm w. destruct (Hm w) as [Hi He]. split; [auto|].
  eapply Forall_impl; eauto.
Qed.

Lemma keeps_both {A} (I I' : W -> W -> Prop) (E E' : Event -> Prop) (m : @M RN S ST T A) :
  keeps I E m -> keeps I' E' m ->
  keeps (fun w w' => I w w' /\ I' w w') (fun e => E e /\ E' e) m.
Proof.
  intros H1 H2 w. destruct (H1 w) as [Hi He], (H2 w) as [Hi' He']. split; [auto|].
  apply Forall_and. auto.
Qed.

Ltac seq_side :=
  try solve
    [ exact seq_kept_refl | exact seq_kept_trans | intros; exact I
    | intros; apply seq_kept_same; reflexivity
    | intros; eapply seq_kept_delete; reflexivity ].

Ltac seq_steps :=
  repeat first
    [ apply keeps_senders_pop_delete; seq_side
    | apply keeps_send_messages; seq_side
    | keeps_step_with seq_side ].

Lemma handle_normal_seq entry :
  @keeps RN S ST T _ seq_kept (fun _ => True) (handle_normal entry).
Proof. unfold handle_normal. seq_steps. Qed.

Lemma handle_config_change_seq entry :
  @keeps RN S ST T _ seq_kept (fun _ => True) (handle_config_change entry).
Proof. unfold handle_config_change, peer_addrs, id. seq_steps. Qed.

Lemma handle_committed_entries_seq entries :
  @keeps RN S ST T _ seq_kept (fun _ => True) (handle_committed_entries entries).
Proof.
  induction entries as [|entry rest IH]; simpl.
  - apply keeps_ret. exact seq_kept_refl.
  - apply keeps_bind; [exact seq_kept_trans | | auto].
    destruct (entry_data entry); [apply keeps_ret; exact seq_kept_refl|].
    destruct (entry_type entry);
      auto using handle_normal_seq, handle_config_change_seq.
    apply keeps_raise. exact seq_kept_refl.
Qed.

Lemma on_ready_seq : @keeps RN S ST T _ seq_kept (fun _ => True) on_ready.
Proof.
  unfold on_ready.
  repeat first
    [ apply handle_committed_entries_seq
    | apply keeps_send_messages; seq_side
    | keeps_step_with seq_side ].
Qed.

Lemma run_dispatch_seq message (w : W) :
  seq_kept w (post (run_dispatch message w)).
Proof.
  unfold run_dispatch, reserve_next_peer_id. unfold_driver.
  destruct message as [[change ch|proposal ch|ch|msg|node]|];
    run_cases;
    first [ apply seq_kept_same; reflexivity
          | eapply seq_kept_alloc; reflexivity ].
Qed.

End Sequences.

Section Loop.

Context {RN S ST T : Type}.
Context `{!RaftLib RN, !AbstractStore S, !StorageCore ST, !WallClock T}.

Abbreviation W := (@World RN S ST T).

Lemma recvs_app t1 t2 : recvs (t1 ++ t2) = recvs t1 ++ recvs t2.
Proof. apply omap_app. Qed.

Lemma recvs_none t : Forall (fun e => ~ is_recv e) t -> recvs t = [].
Proof.
  induction 1 as [|e t He _ IH]; [reflexivity|].
  destruct e; simpl in He; try tauto; exact IH.
Qed.

Lemma handler_event_not_recv e : handler_event e -> ~ is_recv e.
Proof. destruct e; simpl; tauto. Qed.

Lemma on_ready_no_recv : @keeps RN S ST T _ any_world (fun e => ~ is_recv e) on_ready.
Proof.
  unfold on_ready.
  repeat first
    [ apply (keeps_impl any_world any_world handler_event);
      [auto | exact handler_event_not_recv | apply handle_committed_entries_events]
    | apply keeps_send_messages; keeps_side
    | keeps_step ].
Qed.

Lemma run_dispatch_no_recv message (w : W) :
  Forall (fun e => ~ is_recv e) (evs (run_dispatch message w)).
Proof.
  unfold run_dispatch, reserve_next_peer_id. unfold_driver.
  destruct message as [[change ch|proposal ch|ch|msg|node]|];
    run_cases; repeat constructor; simpl; tauto.
Qed.

Lemma bind_ret_any {A B} (a : A) (k : A -> @M RN S ST T B) w : bind (ret a) k w = k a w.
Proof. unfold bind, ret. destruct (k a w). reflexivity. Qed.

(** What follows the dequeue in one iteration. *)
Lemma iteration_body_keeps message :
  @keeps RN S ST T _ seq_kept (fun e => ~ is_recv e)
    (bind (run_dispatch message)
       (fun _ => bind (call_raft Tick (fun rn => (Ok tt, tick rn))) (fun _ => on_ready))).
Proof.
  apply keeps_bind; [exact seq_kept_trans | | intros _].
  - intros w. split; [apply run_dispatch_seq | apply run_dispatch_no_recv].
  - apply keeps_bind; [exact seq_kept_trans | | intros _].
    + apply keeps_call_raft;
        [exact seq_kept_refl | exact seq_kept_trans | simpl; tauto
        | intros; now apply seq_kept_same].
    + apply (keeps_impl (fun w w' => seq_kept w w' /\ any_world w w') seq_kept
               (fun e => True /\ ~ is_recv e)); [tauto | tauto |].
      apply keeps_both; [apply on_ready_seq | apply on_ready_no_recv].
Qed.

Lemma run_iteration_run a (w : W) :
  seq_kept w (post (run_iteration a w)) /\ recvs (evs (run_iteration a w)) = [a].
Proof.
  unfold run_iteration, chan_get.
  rewrite bind_assoc. rewrite (bind_ok _ _ _ tt) by reflexivity. simpl.
  destruct a as [m| |]; simpl.
  - rewrite bind_ret_any.
    destruct (iteration_body_keeps (Some m) w) as [Hi He].
    split; [exact Hi|]. now rewrite (recvs_none _ He).
  - rewrite bind_ret_any.
    destruct (iteration_body_keeps None w) as [Hi He].
    split; [exact Hi|]. now rewrite (recvs_none _ He).
  - split; [apply seq_kept_refl | reflexivity].
Qed.

End Loop.

Section LoopProperties.

Context {RN S ST T : Type}.
Context `{!RaftLib RN, !AbstractStore S, !StorageCore ST, !WallClock T}.

Abbreviation W := (@World RN S ST T).

Lemma run_from_cons a rest (w : W) :
  should_quit w = false ->
  run_from (a :: rest) w = bind (run_iteration a) (fun _ => run_from rest) w.
Proof. intros Hq. simpl. now rewrite Hq. Qed.

Lemma run_from_seq arrivals (w : W) : seq_kept w (post (run_from arrivals w)).
Proof.
  revert w. induction arrivals as [|a rest IH]; intros w.
  - simpl. destruct (should_quit w); apply seq_kept_refl.
  - destruct (should_quit w) eqn:Hq.
    + rewrite run_from_quit by assumption. apply seq_kept_refl.
    + rewrite run_from_cons by assumption.
      destruct (run_iteration_run a w) as [Hit _].
      destruct (res (run_iteration a w)) as [[]|e] eqn:Hres.
      * rewrite (bind_ok _ _ _ _ Hres). simpl.
        eapply seq_kept_trans; [exact Hit | apply IH].
      * rewrite (bind_raise _ _ _ _ Hres). exact Hit.
Qed.

(** X3: throughout a run of the loop the sequence counter never goes back
    and every sequence in the correlation table is at most the counter, so
    the sequence the next accepted request gets (the counter plus one) is
    not in the table: no waiting reply queue is ever overwritten. [run]
    starts from an empty table; the loop keeps the bound from any world
    that has it. *)
Theorem sequences_are_fresh arrivals (w : W) :
  let r := run arrivals w in
  seq w <= seq (post r) /\
  senders_bounded (post r) /\
  client_senders (post r) !! (seq (post r) + 1) = None /\
  (senders_bounded w -> senders_bounded (post (run_from arrivals w))).
Proof.
  assert (seq w <= seq (post (run arrivals w)) /\ senders_bounded (post (run arrivals w)))
    as [Hle Hb].
  { unfold run. rewrite (bind_ok _ _ _ tt) by reflexivity. simpl.
    destruct (run_from_seq arrivals (set_client_senders ∅ w)) as [Hle Hb].
    split; [exact Hle|]. apply Hb. intros k [v Hk]. simpl in Hk.
    now rewrite lookup_empty in Hk. }
  cbv zeta. repeat split; try assumption.
  - destruct (client_senders (post (run arrivals w)) !! (seq (post (run arrivals w)) + 1))
      as [ch|] eqn:Hl; [|reflexivity].
    specialize (Hb _ (ex_intro _ ch Hl)). lia.
  - apply run_from_seq.
Qed.

(** X4: the loop takes the arrivals from the inbound queue in order, one
    per iteration: what it has taken is always a prefix of what is to
    arrive; when it is still running at the end it has taken them all, and
    it returns only with [should_quit] set. *)
Theorem requests_taken_in_order arrivals (w : W) :
  let r := run_from arrivals w in
  recvs (evs r) `prefix_of` arrivals /\
  (res r = Ok false -> recvs (evs r) = arrivals) /\
  (res r = Ok true -> should_quit (post r) = true).
Proof.
  revert w. induction arrivals as [|a rest IH]; intros w.
  - simpl. destruct (should_quit w) eqn:Hq; simpl;
      repeat split; try apply prefix_nil; try (intros; congruence).
  - destruct (should_quit w) eqn:Hq.
    + cbv zeta. rewrite run_from_quit by assumption. simpl.
      repeat split; try apply prefix_nil; try (intros; congruence).
    + cbv zeta. rewrite run_from_cons by assumption.
      destruct (run_iteration_run a w) as [_ Hrecv].
      destruct (res (run_iteration a w)) as [[]|e] eqn:Hres.
      * rewrite (bind_ok _ _ _ _ Hres). simpl. rewrite recvs_app, Hrecv. simpl.
        destruct (IH (post (run_iteration a w))) as (Hpre & Hall & Hquit).
        repeat split.
        -- now apply prefix_cons.
        -- intros Hf. now rewrite (Hall Hf).
        -- exact Hquit.
      * rewrite (bind_raise _ _ _ _ Hres). simpl. rewrite Hrecv.
        repeat split; try (intros; congruence).
        apply prefix_cons, prefix_nil.
Qed.

(** X5: an exception while a request is dispatched ends the loop: it
    escapes [run] as it is, after the dequeue and what the dispatch did; the
    iteration's tick and readiness cycle are skipped and no later arrival
    is taken. This is what happens to a raft message that [step] rejects,
    and a cancelled wait ends the loop in the same way. *)
Theorem dispatch_failure_ends_the_loop m rest e (w : W) :
  should_quit w = false ->
  res (run_dispatch (Some m) w) = Raise e ->
  let d := run_dispatch (Some m) w in
  run_from (Got m :: rest) w = mkRun (Raise e) (post d) (EvRecv (Got m) :: evs d) /\
  (forall msg rn, m = MessageRaft msg -> step msg (raw_node w) = (Raise e, rn) ->
     run_from (Got m :: rest) w
     = mkRun (Raise e) (set_raw_node rn w) [EvRecv (Got m); EvRaft (Step msg)]) /\
  run_from (Cancelled :: rest) w = mkRun (Raise CancelledError) w [EvRecv Cancelled].
Proof.
  intros Hq Hres.
  assert (run_from (Got m :: rest) w
          = mkRun (Raise e) (post (run_dispatch (Some m) w))
              (EvRecv (Got m) :: evs (run_dispatch (Some m) w))) as Hrun.
  { rewrite run_from_cons by assumption. unfold run_iteration, chan_get.
    rewrite !bind_assoc. rewrite (bind_ok _ _ _ tt) by reflexivity. simpl.
    rewrite bind_ret_any, bind_assoc.
    now rewrite (bind_raise _ _ _ e Hres). }
  cbv zeta. split; [exact Hrun | split].
  - intros msg rn -> Hstep. rewrite Hrun. unfold run_dispatch. unfold_driver.
    simpl. now rewrite Hstep.
  - simpl. rewrite Hq. reflexivity.
Qed.

(** X6: a leader accepts a proposal by taking the next sequence, recording
    the reply queue under it and calling [propose] with the encoded
    sequence as context; nothing is replied at this point. When [propose]
    raises, the exception is the outcome and the recorded queue stays in
    the table. *)
Theorem leader_accepts_proposal proposal chan context (w : W) :
  get_id (raw_node w) = get_leader_id (raw_node w) ->
  encode_u64 (seq w + 1) = Ok context ->
  let r := run_dispatch (Some (MessagePropose proposal chan)) w in
  evs r = [EvRaft (Propose context proposal)] /\
  res r = fst (propose context proposal (raw_node w)) /\
  raw_node (post r) = snd (propose context proposal (raw_node w)) /\
  seq (post r) = seq w + 1 /\
  client_senders (post r) = <[seq w + 1 := chan]> (client_senders w) /\
  peers (post r) = peers w.
Proof.
  intros Hl Henc. unfold run_dispatch. unfold_driver. simpl.
  rewrite Hl, N.eqb_refl. simpl. rewrite Henc. simpl.
  destruct (propose context proposal (raw_node w)) as [o rn]. simpl. auto 10.
Qed.

(** X7: a leader proposes a configuration change under the next sequence;
    a change whose node id is 0 is proposed with the leader's own id and
    the same change type and context, any other change as it came. *)
Theorem conf_change_for_self_is_rewritten change chan context (w : W) :
  get_id (raw_node w) = get_leader_id (raw_node w) ->
  encode_u64 (seq w + 1) = Ok context ->
  let r := run_dispatch (Some (MessageConfigChange change chan)) w in
  exists proposed,
    evs r = [EvRaft (ProposeConfChange context proposed)] /\
    cc_change_type proposed = cc_change_type change /\
    cc_context proposed = cc_context change /\
    (cc_node_id change = 0 -> cc_node_id proposed = get_id (raw_node w)) /\
    (cc_node_id change <> 0 -> proposed = change) /\
    client_senders (post r) = <[seq w + 1 := chan]> (client_senders w).
Proof.
  intros Hl Henc. unfold run_dispatch. unfold_driver. simpl.
  rewrite Hl, N.eqb_refl. simpl. rewrite Henc. simpl.
  destruct (cc_node_id change =? 0) eqn:Hz;
    [apply N.eqb_eq in Hz | apply N.eqb_neq in Hz];
    destruct (propose_conf_change _ _ _) as [o rn]; simpl;
    eexists; repeat split; try reflexivity; intros; congruence.
Qed.

End LoopProperties.

Section Membership.

Context {RN S ST T : Type}.
Context `{!RaftLib RN, !AbstractStore S, !StorageCore ST, !WallClock T}.

Abbreviation W := (@World RN S ST T).

Lemma reserved_id_above_keys (ps : gmap N (option RaftClient)) own :
  let n := N.max ((if any_key ps then max_key ps else 1) + 1) own in
  2 <= n /\ own <= n /\ forall k, is_Some (ps !! k) -> k < n.
Proof.
  cbv zeta. destruct (max_key_spec ps) as (_ & Hub & _).
  destruct (any_key ps) eqn:Hany.
  - apply any_key_spec in Hany as (k0 & Hk0 & Hne). specialize (Hub k0 Hk0) as H0.
    repeat split; try lia. intros k Hk. specialize (Hub k Hk). lia.
  - repeat split; try lia. intros k Hk.
    destruct (decide (k = 0)) as [->|Hne]; [lia|].
    assert (any_key ps = true) by (apply any_key_spec; eauto). congruence.
Qed.

(** X8: [reserve_next_peer_id] never fails and never reuses an entry: the
    id it returns is at least 2, at least the node's own id and above every
    id in the registry, which gains exactly one reserved entry under it and
    is otherwise unchanged. *)
Theorem reserved_id_is_unused (w : W) :
  let r := reserve_next_peer_id w in
  exists n,
    res r = Ok n /\ evs r = [] /\
    2 <= n /\ get_id (raw_node w) <= n /\
    (forall k, is_Some (peers w !! k) -> k < n) /\
    peers w !! n = None /\
    peers (post r) = <[n := None]> (peers w).
Proof.
  cbv zeta. rewrite reserve_next_peer_id_run. simpl. eexists.
  destruct (reserved_id_above_keys (peers w) (get_id (raw_node w))) as (H2 & Hown & Hub).
  repeat split; try eassumption.
  destruct (peers w !! _) as [v|] eqn:Hl; [|reflexivity].
  specialize (Hub _ (ex_intro _ v Hl)). lia.
Qed.

(** X9: two reservations in a row hand out consecutive ids. *)
Theorem reservations_are_consecutive (w : W) :
  let r1 := reserve_next_peer_id w in
  let r2 := reserve_next_peer_id (post r1) in
  exists n, res r1 = Ok n /\ res r2 = Ok (n + 1) /\
            peers (post r2) = <[n + 1 := None]> (<[n := None]> (peers w)).
Proof.
  cbv zeta. rewrite (reserve_next_peer_id_run w). cbn [res post].
  set (n := N.max ((if any_key (peers w) then max_key (peers w) else 1) + 1)
                  (get_id (raw_node w))).
  destruct (reserved_id_above_keys (peers w) (get_id (raw_node w))) as (H2 & Hown & Hub).
  fold n in H2, Hown, Hub.
  rewrite reserve_next_peer_id_run. cbn [res post peers raw_node set_peers].
  assert (any_key (<[n := None]> (peers w)) = true) as ->.
  { apply any_key_spec. exists n. rewrite lookup_insert_eq. split; [eauto | lia]. }
  assert (max_key (<[n := None]> (peers w)) = n) as ->.
  { destruct (max_key_spec (<[n := None]> (peers w))) as (_ & Hub' & Hin).
    assert (n <= max_key (<[n := None]> (peers w))) as Hge.
    { apply Hub'. rewrite lookup_insert_eq. eauto. }
    destruct Hin as [v Hv].
    { intros Hemp. apply (f_equal (fun m => m !! n)) in Hemp.
      now rewrite lookup_insert_eq, lookup_empty in Hemp. }
    apply lookup_insert_Some in Hv as [[Heq _]|[_ Hv]]; [congruence|].
    specialize (Hub _ (ex_intro _ v Hv)). lia. }
  exists n. replace (N.max (n + 1) (get_id (raw_node w))) with (n + 1) by lia.
  auto.
Qed.

(** X10: a committed [AddNode] puts a client for the decoded address under
    the node's id, over a reserved entry or an older client alike, and
    leaves every other entry and [should_quit] alone; this holds whatever
    happens later in the handler. *)
Theorem add_node_populates_entry entry sq change a (w : W) :
  decode_u64 (entry_context entry) = Ok sq ->
  conf_change_decode (entry_data entry) = Ok change ->
  cc_change_type change = AddNode ->
  decode_u64 (cc_context change) = Ok a ->
  let r := handle_config_change entry w in
  peers (post r) = <[cc_node_id change := Some (mkRaftClient a)]> (peers w) /\
  peers (post r) !! cc_node_id change = Some (Some (mkRaftClient a)) /\
  (forall k, k <> cc_node_id change -> peers (post r) !! k = peers w !! k) /\
  should_quit (post r) = should_quit w.
Proof.
  intros Hsq Hdec Hty Ha.
  assert (peers (post (handle_config_change entry w))
          = <[cc_node_id change := Some (mkRaftClient a)]> (peers w) /\
          should_quit (post (handle_config_change entry w)) = should_quit w) as [Hp Hq].
  { unfold handle_config_change. unfold_driver. rewrite Hsq, Hdec, Hty, Ha.
    run_cases; auto. }
  cbv zeta. rewrite Hp. repeat split; try assumption.
  - apply lookup_insert_eq.
  - intros k Hk. now rewrite lookup_insert_ne by auto.
Qed.

(** X11: a committed [RemoveNode] for another node removes exactly that
    entry from the registry and does not set [should_quit]; when the id is
    not registered the handler raises a key error before anything else
    happens, and [AddLearnerNode] is not implemented: in both cases
    [apply_conf_change] is not called and the world is untouched. *)
Theorem remove_node_drops_entry entry sq change (w : W) :
  decode_u64 (entry_context entry) = Ok sq ->
  conf_change_decode (entry_data entry) = Ok change ->
  let r := handle_config_change entry w in
  (cc_change_type change = RemoveNode ->
   cc_node_id change <> get_id (raw_node w) ->
   match peers w !! cc_node_id change with
   | Some _ => peers (post r) = delete (cc_node_id change) (peers w) /\
               should_quit (post r) = should_quit w
   | None => r = mkRun (Raise KeyError) w []
   end) /\
  (cc_change_type change = AddLearnerNode ->
   r = mkRun (Raise NotImplementedError) w []).
Proof.
  intros Hsq Hdec. cbv zeta. split.
  - intros Hty Hne. apply N.eqb_neq in Hne.
    unfold handle_config_change. unfold_driver. rewrite Hsq, Hdec, Hty. simpl.
    rewrite Hne. simpl.
    destruct (peers w !! cc_node_id change) as [v|] eqn:Hl; [|reflexivity].
    run_cases; auto.
  - intros Hty. unfold handle_config_change. unfold_driver.
    rewrite Hsq, Hdec, Hty. reflexivity.
Qed.

End Membership.

Section NormalEntries.

Context {RN S ST T : Type}.
Context `{!RaftLib RN, !AbstractStore S, !StorageCore ST, !WallClock T}.

Abbreviation W := (@World RN S ST T).





(** X13: when the context of a normal entry decodes and the state machine
    accepts the payload, [apply] is called once, first, with the entry's
    data; the waiting queue, if there is one, receives exactly the bytes
    [apply] returned, and its table entry is removed. All this holds even
    when the snapshot that may follow fails. *)
Theorem reply_carries_apply_result entry sq d s' (w : W) :
  decode_u64 (entry_context entry) = Ok sq ->
  store_apply (entry_data entry) (store w) = (Ok d, s') ->
  let r := handle_normal entry w in
  (exists rest, evs r = EvStore (SmApply (entry_data entry)) :: rest) /\
  applied (evs r) = [entry_data entry] /\
  puts (evs r) = match client_senders w !! sq with
                 | Some ch => [(ch, RaftRespResponse d)]
                 | None => []
                 end /\
  client_senders (post r) = delete sq (client_senders w).
Proof.
  intros Hsq Happ. unfold handle_normal. unfold_driver. rewrite Hsq. simpl.
  rewrite Happ. run_cases; repeat split; eauto.
Qed.

(** X14: a normal entry whose context does not decode is not applied at
    all, and one whose payload the state machine rejects gets no reply:
    the handler raises with the correlation table untouched, and no
    snapshot or storage call is made. *)
Theorem failed_apply_sends_nothing entry (w : W) :
  let r := handle_normal entry w in
  (forall e, decode_u64 (entry_context entry) = Raise e -> r = mkRun (Raise e) w []) /\
  (forall sq e s',
     decode_u64 (entry_context entry) = Ok sq ->
     store_apply (entry_data entry) (store w) = (Raise e, s') ->
     r = mkRun (Raise e) (set_store s' w) [EvStore (SmApply (entry_data entry))]).
Proof.
  cbv zeta. split.
  - intros e Hsq. unfold handle_normal. unfold_driver. now rewrite Hsq.
  - intros sq e s' Hsq Happ. unfold handle_normal. unfold_driver. rewrite Hsq. simpl.
    now rewrite Happ.
Qed.

(** X15: while the snapshot interval has not elapsed, committing a normal
    entry writes nothing to storage, takes no snapshot of the state machine
    and leaves [last_snap_time] alone. Once it has elapsed (and the entry
    was applied), [last_snap_time] is set to a new reading of the clock
    before the snapshot is attempted, so it is advanced even when the
    snapshot or the storage calls fail. *)
Theorem snapshot_timer_gates_storage entry (w : W) :
  let r := handle_normal entry w in
  (snap_due (time_at (clock_reads w)) (last_snap_time w) = false ->
   Forall (fun e => ~ is_storage_call e) (evs r) /\
   (EvStore SmSnapshot ∉ evs r) /\
   last_snap_time (post r) = last_snap_time w) /\
  (forall sq d s',
     snap_due (time_at (clock_reads w)) (last_snap_time w) = true ->
     decode_u64 (entry_context entry) = Ok sq ->
     store_apply (entry_data entry) (store w) = (Ok d, s') ->
     last_snap_time (post r) = time_at (Datatypes.S (clock_reads w))).
Proof.
  cbv zeta. split.
  - intros Hdue. unfold handle_normal. unfold_driver.
    run_cases; try congruence;
      (split; [repeat constructor; simpl; tauto
              | split; [intros Hin; not_in_trace Hin | reflexivity]]).
  - intros sq d s' Hdue Hsq Happ. unfold handle_normal. unfold_driver.
    rewrite Hsq. simpl. rewrite Happ.
    run_cases; try congruence; reflexivity.
Qed.

End NormalEntries.

Ltac all_events :=
  repeat first
    [ apply Forall_nil_2
    | apply Forall_cons; split;
      [ first [ discriminate
              | congruence
              | intros [= ->]; simpl in *; discriminate ] | ]
    | apply Forall_app; split; [eapply Forall_impl; [eassumption | clean_events] | ]
    | eapply Forall_impl; [eassumption | clean_events] ].

Section ReadinessCalls.

Context {RN S ST T : Type}.
Context `{!RaftLib RN, !AbstractStore S, !StorageCore ST, !WallClock T}.

Local Arguments send_messages : simpl never.
Local Arguments handle_committed_entries : simpl never.

(** X16: in a readiness cycle [advance] is called only after
    [storage.append] was called with the batch's entries, and
    [advance_apply] only after [advance]; a commit index of 0 in the light
    batch is never written to storage; and without anything ready the
    cycle does nothing at all. *)
Theorem advance_follows_append (w : @World RN S ST T) :
  let r := on_ready w in
  let rd := fst (ready (raw_node w)) in
  preceded_by (fun e => e = EvStorage (Append (rd_entries rd)))
    (fun e => e = EvRaft Advance) (evs r) /\
  preceded_by (fun e => e = EvRaft Advance) (fun e => e = EvRaft AdvanceApply) (evs r) /\
  Forall (fun e => e <> EvStorage (SetHardStateComit 0)) (evs r) /\
  (has_ready (raw_node w) = false -> r = mkRun (Ok tt) w []).
Proof.
  split; [|split; [|split]].
  - unfold on_ready. unfold_driver. ready_cases; order_ready.
  - unfold on_ready. unfold_driver. ready_cases; order_ready.
  - unfold on_ready. unfold_driver. ready_cases; all_events.
  - intros Hr. unfold on_ready. unfold_driver. now rewrite Hr.
Qed.

End ReadinessCalls.

(** * Further properties of the mailbox and the deserializer *)

Module MailboxProperties.

Import Mailbox.

Section Calls.

Variable reroute_message :
  Client -> RerouteMsgType -> option ConfChangeV2 -> option bytes -> outcome RerouteReply.
Variable pickle_dumps : list string -> bytes.
Variable raft_node : RaftNode.

(** X17: [send] returns bytes in exactly two cases: the node answered with
    a [RaftRespMessage], whose data it returns, or the node answered
    [WrongLeader], the leader is a registered peer with a client, and the
    reroute of the same message to it came back as a [SendMessageResponse],
    whose data it returns. *)
Theorem send_succeeds_iff message answer d :
  fst (send reroute_message raft_node message answer) = Ok d <->
  answer = Some (RaftRespMessage d) \/
  (answer = Some WrongLeaderRespMessage /\
   exists c, peers raft_node !! leader_id raft_node = Some (Some (mkPeer (Some c))) /\
             reroute_message c ReroutePropose None (Some message)
             = Ok (SendMessageResponse d)).
Proof.
  unfold send, handle_response. split.
  - destruct answer as [[ |d'| | ]|]; simpl; try discriminate.
    + intros [= ->]. now left.
    + destruct (peers raft_node !! leader_id raft_node) as [[[[c|]]|]|] eqn:Hl;
        simpl; try discriminate.
      destruct (reroute_message c ReroutePropose None (Some message))
        as [[d'|]|e] eqn:Hr; simpl; try discriminate.
      intros [= ->]. right. eauto.
  - intros [->|(-> & c & Hl & Hr)]; simpl; [reflexivity|].
    rewrite Hl, Hr. reflexivity.
Qed.

(** X18: [leave] succeeds in exactly three cases: the node answered with a
    bootstrap-ready or a [RaftRespMessage] response, or it answered
    [WrongLeader] and the reroute of the same [RemoveNode] change to the
    registered leader came back as a [SendMessageResponse]. In every case
    the request it enqueues is the conf change with the one [RemoveNode]
    step for the given node and the pickled address list as context. *)
Theorem leave_succeeds_iff node_id addr answer :
  let cc := mkConfChangeV2 [(RemoveNode, node_id)] (pickle_dumps [addr]) in
  let r := leave reroute_message pickle_dumps raft_node node_id addr answer in
  (fst r = Ok tt <->
   answer = ClusterBootstrapReadyRespMessage \/
   (exists d, answer = RaftRespMessage d) \/
   (answer = WrongLeaderRespMessage /\
    exists c d, peers raft_node !! leader_id raft_node = Some (Some (mkPeer (Some c))) /\
                reroute_message c RerouteConfChange (Some cc) None
                = Ok (SendMessageResponse d))) /\
  head (snd r) = Some (Enqueue (ConfigChangeReqMessage cc)).
Proof.
  cbv zeta. unfold leave, handle_response. split; [split|].
  - destruct answer as [ |d'| | ]; simpl; try discriminate; eauto.
    destruct (peers raft_node !! leader_id raft_node) as [[[[c|]]|]|] eqn:Hl;
      simpl; try discriminate.
    destruct (reroute_message c RerouteConfChange _ None)
      as [[d'|]|e] eqn:Hr; simpl; try discriminate.
    intros _. right. right. eauto.
  - intros [->|[(d & ->)|(-> & c & d & Hl & Hr)]]; simpl; try reflexivity.
    rewrite Hl, Hr. reflexivity.
  - destruct answer as [ |d'| | ]; simpl; try reflexivity.
    destruct (peers raft_node !! leader_id raft_node) as [[[[c|]]|]|]; simpl;
      try reflexivity.
    destruct (reroute_message c RerouteConfChange _ None) as [[d'|]|e]; reflexivity.
Qed.

(** X19: whatever the node and the leader answer, one call of [send] makes
    at most one reroute, after the enqueue, and only on a [WrongLeader]
    answer; it goes to the client registered for the current leader and
    carries the message that was proposed. Without a registered leader, or
    without a client for it, [send] fails without rerouting. *)
Theorem send_reroutes_at_most_once message answer :
  let acts := snd (send reroute_message raft_node message answer) in
  acts = [Enqueue (ProposeReqMessage message)] \/
  (answer = Some WrongLeaderRespMessage /\
   exists c, peers raft_node !! leader_id raft_node = Some (Some (mkPeer (Some c))) /\
             acts = [Enqueue (ProposeReqMessage message);
                     Reroute c ReroutePropose None (Some message)]).
Proof.
  cbv zeta. unfold send, handle_response.
  destruct answer as [[ |d'| | ]|]; simpl; auto.
  destruct (peers raft_node !! leader_id raft_node) as [[[[c|]]|]|] eqn:Hl; simpl; auto.
  right. split; [reflexivity|]. exists c. split; [reflexivity|].
  destruct (reroute_message c ReroutePropose None (Some message)) as [[d'|]|e];
    reflexivity.
Qed.

End Calls.

End MailboxProperties.

Module DeserializerProperties.

Import Deserializer.

Lemma index_spec b data :
  match index b data with
  | Some i => exists suf, drop i data = b :: suf /\ (b ∉ take i data)
  | None => b ∉ data
  end.
Proof.
  induction data as [|x rest IH]; simpl.
  - apply not_elem_of_nil.
  - destruct (decide (x = b)) as [->|Hne].
    + exists rest. split; [reflexivity | apply not_elem_of_nil].
    + destruct (index b rest) as [i|].
      * destruct IH as (suf & Hd & Hnot). exists suf. split; [exact Hd|].
        simpl. intros Hin. apply elem_of_cons in Hin as [Heq|Hin]; [congruence | auto].
      * intros Hin. apply elem_of_cons in Hin as [Heq|Hin]; [congruence | auto].
Qed.

Section Pickle.

Variable Obj : Type.
Variable pickle_loads : bytes -> outcome Obj.

(** X20: [pickle_deserialize] answers [None] on empty data and hands data
    without a [PROTO] byte back unchanged; otherwise everything before the
    first [PROTO] byte is dropped and the rest, which starts with that
    byte, goes to [pickle.loads], whose object or exception is the
    result. *)
Theorem pickle_deserialize_skips_to_header data :
  (data = [] -> pickle_deserialize Obj pickle_loads data = Ok NoData) /\
  (data <> [] -> PROTO ∉ data -> pickle_deserialize Obj pickle_loads data = Ok (Raw data)) /\
  (PROTO ∈ data ->
   exists pre suf,
     data = pre ++ PROTO :: suf /\ (PROTO ∉ pre) /\
     pickle_deserialize Obj pickle_loads data
     = match pickle_loads (PROTO :: suf) with
       | Ok o => Ok (Loaded o)
       | Raise e => Raise e
       end).
Proof.
  split; [|split].
  - now intros ->.
  - intros Hne Hnot. destruct data as [|x rest]; [congruence|].
    unfold pickle_deserialize. pose proof (index_spec PROTO (x :: rest)) as Hi.
    destruct (index PROTO (x :: rest)) as [i|]; [|reflexivity].
    destruct Hi as (suf & Hd & _). exfalso. apply Hnot.
    rewrite <- (take_drop i (x :: rest)), Hd. apply elem_of_app. right. now left.
  - intros Hin. destruct data as [|x rest]; [now apply elem_of_nil in Hin|].
    unfold pickle_deserialize. pose proof (index_spec PROTO (x :: rest)) as Hi.
    destruct (index PROTO (x :: rest)) as [i|]; [|contradiction].
    destruct Hi as (suf & Hd & Hnot).
    exists (take i (x :: rest)), suf. rewrite Hd. split; [|split].
    + now rewrite <- Hd, take_drop.
    + exact Hnot.
    + reflexivity.
Qed.

End Pickle.

End DeserializerProperties.

(** * The further properties at work *)

Lemma conf_change_v2_stops_the_batch_witness :
  let r := handle_committed_entries ([entry_a] ++ entry_v2 :: [entry_b]) leader_waiting in
  res r = Raise NotImplementedError /\ applied (evs r) = [[x61]].
Proof.
  assert (res (handle_committed_entries [entry_a] leader_waiting) = Ok tt) as Hok
    by (vm_compute; reflexivity).
  cbv zeta.
  rewrite (conf_change_v2_stops_the_batch [entry_a] entry_v2 [entry_b] leader_waiting
             eq_refl ltac:(discriminate) Hok).
  split; vm_compute; reflexivity.
Defined.

Lemma dispatch_failure_ends_the_loop_witness :
  run_from [Got (MessageRaft (mkMessage 2 1 [x6d])); Got (MessagePropose [x61] 55)]
    strict_leader
  = mkRun (Raise (ExternalError 3)) strict_leader
      [EvRecv (Got (MessageRaft (mkMessage 2 1 [x6d]))); EvRaft (Step (mkMessage 2 1 [x6d]))].
Proof.
  assert (res (run_dispatch (Some (MessageRaft (mkMessage 2 1 [x6d]))) strict_leader)
          = Raise (ExternalError 3)) as Hres by (vm_compute; reflexivity).
  destruct (dispatch_failure_ends_the_loop (MessageRaft (mkMessage 2 1 [x6d]))
              [Got (MessagePropose [x61] 55)] (ExternalError 3) strict_leader
              eq_refl Hres) as (_ & Hstep & _).
  exact (Hstep (mkMessage 2 1 [x6d]) (raw_node strict_leader) eq_refl eq_refl).
Defined.

Lemma leader_accepts_proposal_witness :
  let r := run_dispatch (Some (MessagePropose [x61] 55)) strict_leader in
  evs r = [EvRaft (Propose (ctx 1) [x61])] /\
  res r = Raise (ExternalError 2) /\
  client_senders (post r) = <[1 := 55]> ∅.
Proof.
  assert (get_id (raw_node strict_leader) = get_leader_id (raw_node strict_leader)) as Hl
    by reflexivity.
  assert (encode_u64 (seq strict_leader + 1) = Ok (ctx 1)) as Henc by reflexivity.
  destruct (leader_accepts_proposal [x61] 55 (ctx 1) strict_leader Hl Henc)
    as (Hev & Hres & _ & _ & Hs & _).
  cbv zeta. split; [exact Hev | split; [exact Hres | exact Hs]].
Defined.

Lemma conf_change_for_self_is_rewritten_witness :
  exists proposed,
    evs (run_dispatch (Some (MessageConfigChange (mkConfChange 0 RemoveNode [x80]) 55))
           leader_idle)
    = [EvRaft (ProposeConfChange (ctx 1) proposed)] /\
    cc_node_id proposed = 1.
Proof.
  assert (get_id (raw_node leader_idle) = get_leader_id (raw_node leader_idle)) as Hl
    by reflexivity.
  assert (encode_u64 (seq leader_idle + 1) = Ok (ctx 1)) as Henc by reflexivity.
  destruct (conf_change_for_self_is_rewritten (mkConfChange 0 RemoveNode [x80]) 55 (ctx 1)
              leader_idle Hl Henc) as (proposed & Hev & _ & _ & Hid & _).
  exists proposed. split; [exact Hev | exact (Hid eq_refl)].
Defined.

Lemma add_node_populates_entry_witness :
  peers (post (handle_config_change entry_add_2
                 (node_with 1 1 None [] {[2 := None]} {[1 := 55]} 0 0))) !! 2
  = Some (Some c2).
Proof.
  destruct (add_node_populates_entry (RaftLib0 := scripted_raft) entry_add_2 1
              (mkConfChange 2 AddNode [x00; x00; x00; x00; x00; x00; x23; x2a]) 9002
              (node_with 1 1 None [] {[2 := None]} {[1 := 55]} 0 0)
              eq_refl eq_refl eq_refl eq_refl) as (_ & Hl & _).
  exact Hl.
Defined.

Lemma remove_node_drops_entry_witness :
  peers (post (handle_config_change entry_remove_3 leader_of_three))
  = delete 3 (peers leader_of_three) /\
  should_quit (post (handle_config_change entry_remove_3 leader_of_three)) = false.
Proof.
  destruct (remove_node_drops_entry (RaftLib0 := scripted_raft) entry_remove_3 1
              (mkConfChange 3 RemoveNode []) leader_of_three eq_refl eq_refl)
    as [Hrm _].
  assert (peers leader_of_three !! 3 = Some (Some (mkRaftClient 9003))) as Hl
    by (vm_compute; reflexivity).
  specialize (Hrm eq_refl ltac:(discriminate)). simpl cc_node_id in Hrm.
  rewrite Hl in Hrm. exact Hrm.
Defined.

Lemma reply_carries_apply_result_witness :
  puts (evs (handle_normal entry_a leader_waiting)) = [(55, RaftRespResponse [x61])] /\
  applied (evs (handle_normal entry_a leader_waiting)) = [[x61]].
Proof.
  destruct (reply_carries_apply_result (AbstractStore0 := echo_store)
              entry_a 1 [x61] [[x61]] leader_waiting
              eq_refl eq_refl) as (_ & Happ & Hput & _).
  split; [|exact Happ].
  etransitivity; [exact Hput | vm_compute; reflexivity].
Defined.

Lemma failed_apply_sends_nothing_witness :
  handle_normal (mkEntry EntryNormal [x61] [] 8 1) leader_waiting
  = mkRun (Raise StructError) leader_waiting [].
Proof.
  destruct (failed_apply_sends_nothing (mkEntry EntryNormal [x61] [] 8 1) leader_waiting)
    as [Hbad _].
  exact (Hbad StructError eq_refl).
Defined.

Lemma snapshot_timer_gates_storage_witness :
  Forall (fun e => ~ is_storage_call e) (evs (handle_normal entry_a leader_waiting)) /\
  last_snap_time (post (handle_normal entry_a leader_waiting)) = 0%Z.
Proof.
  destruct (snapshot_timer_gates_storage entry_a leader_waiting) as [Hnot _].
  destruct (Hnot eq_refl) as (Hst & _ & Hlast).
  split; [exact Hst | exact Hlast].
Defined.

(** Two proposals and a timeout on leader 1: the loop is still running,
    has taken the three arrivals in order, and the sequences 1 and 2 name
    the two reply queues. *)
Lemma two_proposals_two_sequences :
  let r := run [Got (MessagePropose [x61] 55); TimedOut; Got (MessagePropose [x62] 56)]
             leader_idle in
  res r = Ok false /\
  recvs (evs r) = [Got (MessagePropose [x61] 55); TimedOut; Got (MessagePropose [x62] 56)] /\
  seq (post r) = 2 /\
  client_senders (post r) = {[1 := 55; 2 := 56]}.
Proof. repeat split; vm_compute; reflexivity. Qed.
